(** * robot_example.cpp: a 2D robot pose with [move] and [rotate]

Shallow embedding of the two program variants
[src/projects/-1/robot_example.cpp] and [src/projects/4/robot_example.cpp].

- A C++ [double] is an IEEE-754 binary64 value, modelled by the Standard
  Library's [spec_float] with [prec = 53] and [emax = 1024]; [+] and [*]
  are [SFadd] and [SFmul] (round to nearest, ties to even).
- [cos] and [sin] come from the platform's math library; they are the
  fields of the class [Libm] and every statement is made for an arbitrary
  instance.
- [std::cout] is the text written so far; [operator<<] on a [double] is
  modelled for the default stream state (precision 6, no float-field
  flag), which is the C conversion [%g].
- Member functions mutate [*this] and write to [std::cout]: they are
  state-passing functions over [World] that return the updated object. *)

From Stdlib Require Import ZArith Lia Bool List String Ascii.
From Stdlib Require Import Floats.SpecFloat DecimalString.
Import ListNotations.
Local Open Scope Z_scope.

(** ** IEEE-754 binary64 *)

Module Double.

Definition prec : Z := 53.
Definition emax : Z := 1024.

Definition double := spec_float.

Definition add : double -> double -> double := SFadd prec emax.
Definition mul : double -> double -> double := SFmul prec emax.
Definition neg : double -> double := SFopp.

(** The value [m * 2^e], rounded to binary64. *)
Definition of_dyadic (m e : Z) : double := binary_normalize prec emax m e false.

(** Conversion of an [int] argument to [double]. *)
Definition of_int (n : Z) : double := of_dyadic n 0.

Definition pos_zero : double := S754_zero false.
Definition neg_zero : double := S754_zero true.
Definition pos_inf : double := S754_infinity false.
Definition nan : double := S754_nan.
Definition max_double : double := SFmax_float prec emax.

Definition is_finite (d : double) : bool :=
  match d with
  | S754_zero _ | S754_finite _ _ _ => true
  | S754_infinity _ | S754_nan => false
  end.

Definition is_nan (d : double) : bool :=
  match d with
  | S754_nan => true
  | _ => false
  end.

Definition is_zero (d : double) : bool :=
  match d with
  | S754_zero _ => true
  | _ => false
  end.

(** [a == b] of C++: numeric equality, [-0 == +0], NaN differs from all. *)
Definition eqb : double -> double -> bool := SFeqb.
Definition ltb : double -> double -> bool := SFltb.

(** The representations that are binary64 values. *)
Definition valid (d : double) : bool := valid_binary prec emax d.

(** A finite binary64 value is an integer multiple of [2^-1074]:
    [scaled d] is [d * 2^1074]. *)
Definition scaled (d : double) : Z :=
  match d with
  | S754_finite s m e => cond_Zopp s (Zpos m * 2 ^ (e + 1074))
  | _ => 0
  end.

End Double.

Export Double.

Declare Scope double_scope.
Delimit Scope double_scope with double.
Infix "[+]" := Double.add (at level 50, left associativity) : double_scope.
Infix "[*]" := Double.mul (at level 40, left associativity) : double_scope.
Local Open Scope double_scope.

(** ** The math library *)

Class Libm : Type := {
  cos : double -> double;
  sin : double -> double
}.

(** A small instance used to run the definitions: the Taylor polynomials
    [1 - a^2/2 + a^4/24] and [a - a^3/6 + a^5/120], evaluated in binary64.
    It has the exact values C's Annex F prescribes at zero,
    [cos(+-0) = 1] and [sin(+-0) = +-0]. *)
Definition poly_cos (a : double) : double :=
  let a2 := a [*] a in
  of_int 1 [+] a2 [*] (of_dyadic (-1) (-1) [+] a2 [*] of_dyadic 6004799503160661 (-57)).

Definition poly_sin (a : double) : double :=
  let a2 := a [*] a in
  a [*] (of_int 1 [+] a2 [*] (of_dyadic (-6004799503160661) (-55)
                           [+] a2 [*] of_dyadic 4803839602528529 (-59))).

Definition poly_libm : Libm := {| cos := poly_cos; sin := poly_sin |}.

(** The same polynomials with the result C's Annex F prescribes for an
    argument that is not finite: [cos] and [sin] of an infinity or of a NaN
    are NaN. *)
Definition annex_f_libm : Libm :=
  {| cos := fun a => if is_finite a then poly_cos a else nan;
     sin := fun a => if is_finite a then poly_sin a else nan |}.

(** ** Text output *)

Module Ostream.

Local Open Scope string_scope.
Local Open Scope Z_scope.

Definition newline : string := String (ascii_of_nat 10) EmptyString.

Definition digits_of (n : Z) : string :=
  NilZero.string_of_uint (N.to_uint (Z.to_N n)).

Fixpoint zeros (n : nat) : string :=
  match n with
  | O => EmptyString
  | S k => String "0" (zeros k)
  end.

(** [s] with zeros in front, up to [width] characters. *)
Definition pad_left (width : nat) (s : string) : string :=
  zeros (width - String.length s) ++ s.

Fixpoint strip_zeros (s : string) : string :=
  match s with
  | EmptyString => EmptyString
  | String c r =>
      match strip_zeros r with
      | EmptyString => if Ascii.eqb c "0" then EmptyString else String c EmptyString
      | r' => String c r'
      end
  end.

Definition with_point (int_part frac : string) : string :=
  match strip_zeros frac with
  | EmptyString => int_part
  | f => int_part ++ "." ++ f
  end.

(** Round-half-even quotient of two positive integers. *)
Definition div_half_even (n d : Z) : Z :=
  let q := n / d in
  let r := n mod d in
  match 2 * r ?= d with
  | Lt => q
  | Gt => q + 1
  | Eq => if Z.even q then q else q + 1
  end.

(** Number of decimal digits of [q >= 1], minus one. *)
Fixpoint ilog10 (fuel : nat) (q : Z) : Z :=
  match fuel with
  | O => 0
  | S f => if q <? 10 then 0 else 1 + ilog10 f (q / 10)
  end.

(** Least [k] with [n * 10^k >= d]. *)
Fixpoint scale_up (fuel : nat) (n d : Z) : Z :=
  match fuel with
  | O => 0
  | S f => if d <=? n then 0 else 1 + scale_up f (10 * n) d
  end.

(** [floor (log10 (n / d))] for positive [n], [d]. *)
Definition dec_exponent (n d : Z) : Z :=
  if d <=? n then ilog10 400 (n / d) else - scale_up 400 n d.

(** [n / d] rounded to six significant digits: [(D, X)] with
    [10^5 <= D < 10^6] and value [D * 10^(X-5)]. *)
Definition six_digits (n d : Z) : Z * Z :=
  let X := dec_exponent n d in
  let D := if X <=? 5 then div_half_even (n * 10 ^ (5 - X)) d
           else div_half_even n (d * 10 ^ (X - 5)) in
  if D =? 1000000 then (100000, X + 1) else (D, X).

(** The conversion [%g] with precision 6 of the positive value [m * 2^e]. *)
Definition fmt_g (m : positive) (e : Z) : string :=
  let n := if 0 <=? e then Zpos m * 2 ^ e else Zpos m in
  let d := if 0 <=? e then 1 else 2 ^ (- e) in
  let '(D, X) := six_digits n d in
  if (-4 <=? X) && (X <? 6) then
    let unit := 10 ^ (5 - X) in
    with_point (digits_of (D / unit)) (pad_left (Z.to_nat (5 - X)) (digits_of (D mod unit)))
  else
    with_point (digits_of (D / 100000)) (pad_left 5 (digits_of (D mod 100000)))
    ++ "e" ++ (if X <? 0 then "-" else "+") ++ pad_left 2 (digits_of (Z.abs X)).

Definition sign_string (s : bool) : string := if s then "-" else EmptyString.

(** [os << d] for a [double], default stream state.  A NaN has no sign
    in [spec_float], so one text stands for all of them: the C library
    prints [nan] or [-nan] after the sign bit, which the model does not
    carry.  No statement below depends on the text of a NaN. *)
Definition show_double (d : double) : string :=
  match d with
  | S754_nan => "nan"
  | S754_infinity s => sign_string s ++ "inf"
  | S754_zero s => sign_string s ++ "0"
  | S754_finite s m e => sign_string s ++ fmt_g m e
  end.

End Ostream.

(** ** Program state *)

(** What a run has called so far.  This log is ghost state: the programs do
    not keep it; it lets statements count constructor and method calls. *)
Inductive Call : Type :=
| CallRobot (x y angle : double)
| CallMove (distance : double)
| CallRotate (angle_change : double).

Record World : Type := {
  cout : string;
  calls : list Call
}.

Definition empty_world : World := {| cout := EmptyString; calls := [] |}.

(** Computations that read and write the world. *)
Definition Prog (A : Type) : Type := World -> A * World.

Definition ret {A} (a : A) : Prog A := fun w => (a, w).

Definition bind {A B} (c : Prog A) (k : A -> Prog B) : Prog B :=
  fun w => let (a, w') := c w in k a w'.

Notation "x <- c ;; k" := (bind c (fun x => k))
  (at level 61, c at next level, right associativity).
Notation "c ;; k" := (bind c (fun _ => k))
  (at level 61, right associativity).

(** [std::cout << s] for a string literal. *)
Definition put_string (s : string) : Prog unit :=
  fun w => (tt, {| cout := cout w ++ s; calls := calls w |}).

(** [std::cout << d] for a [double]. *)
Definition put_double (d : double) : Prog unit :=
  put_string (Ostream.show_double d).

(** [std::cout << std::endl]. *)
Definition put_endl : Prog unit := put_string Ostream.newline.

Definition log_call (c : Call) : Prog unit :=
  fun w => (tt, {| cout := cout w; calls := calls w ++ [c] |}).

(** A pose as a plain triple [(x, y, angle)]. *)
Definition Pose : Type := double * double * double.

(** The operations a driver can apply to a robot. *)
Inductive Op : Type :=
| OpMove (distance : double)
| OpRotate (angle_change : double).

(** ** [src/projects/-1/robot_example.cpp] *)

Module ProjM1.

Record Robot : Type := { x : double; y : double; angle : double }.

Definition pose (r : Robot) : Pose := (x r, y r, angle r).

Section Methods.
  Context {L : Libm}.

(** [Robot(double x = 0, double y = 0, double angle = 0)
       : x(x), y(y), angle(angle) {}] *)
Definition Robot_new (x0 y0 angle0 : double) : Prog Robot :=
  log_call (CallRobot x0 y0 angle0) ;;
  ret {| x := x0; y := y0; angle := angle0 |}.

(** [void move(double distance)]: [cos] and [sin] are called unqualified
    on a [double], which selects the C library's functions. *)
Definition move (distance : double) (this : Robot) : Prog Robot :=
  log_call (CallMove distance) ;;
  let this := {| x := x this [+] distance [*] cos (angle this);
                 y := y this; angle := angle this |} in
  let this := {| x := x this;
                 y := y this [+] distance [*] sin (angle this);
                 angle := angle this |} in
  put_string "Robot moved to (" ;; put_double (x this) ;;
  put_string ", " ;; put_double (y this) ;; put_string ")" ;; put_endl ;;
  ret this.

(** [void rotate(double angle_change)] *)
Definition rotate (angle_change : double) (this : Robot) : Prog Robot :=
  log_call (CallRotate angle_change) ;;
  let this := {| x := x this; y := y this;
                 angle := angle this [+] angle_change |} in
  put_string "Robot rotated to " ;; put_double (angle this) ;;
  put_string " radians" ;; put_endl ;;
  ret this.

(** [int main()] *)
Definition main : Prog Z :=
  put_string "Robot C++ Example" ;; put_endl ;;
  robot <- Robot_new (of_int 0) (of_int 0) (of_int 0) ;;
  robot <- move (of_dyadic 1 0) robot ;;
  robot <- rotate (of_dyadic 1 (-1)) robot ;;
  ret 0%Z.

Definition apply (o : Op) (this : Robot) : Prog Robot :=
  match o with
  | OpMove d => move d this
  | OpRotate a => rotate a this
  end.

Fixpoint run (ops : list Op) (this : Robot) : Prog Robot :=
  match ops with
  | [] => ret this
  | o :: rest => this' <- apply o this ;; run rest this'
  end.

End Methods.

End ProjM1.

(** ** [src/projects/4/robot_example.cpp] *)

Module Proj4.

Record Robot : Type := { x : double; y : double; angle : double }.

Definition pose (r : Robot) : Pose := (x r, y r, angle r).

Section Methods.
  Context {L : Libm}.

Definition Robot_new (x0 y0 angle0 : double) : Prog Robot :=
  log_call (CallRobot x0 y0 angle0) ;;
  ret {| x := x0; y := y0; angle := angle0 |}.

(** [void move(double distance)], with [std::cos] and [std::sin]. *)
Definition move (distance : double) (this : Robot) : Prog Robot :=
  log_call (CallMove distance) ;;
  let this := {| x := x this [+] distance [*] cos (angle this);
                 y := y this; angle := angle this |} in
  let this := {| x := x this;
                 y := y this [+] distance [*] sin (angle this);
                 angle := angle this |} in
  put_string "Robot moved to (" ;; put_double (x this) ;;
  put_string ", " ;; put_double (y this) ;; put_string ")" ;; put_endl ;;
  ret this.

Definition rotate (angle_change : double) (this : Robot) : Prog Robot :=
  log_call (CallRotate angle_change) ;;
  let this := {| x := x this; y := y this;
                 angle := angle this [+] angle_change |} in
  put_string "Robot rotated to " ;; put_double (angle this) ;;
  put_string " radians" ;; put_endl ;;
  ret this.

(** [int main()] *)
Definition main : Prog Z :=
  put_string "My name is shayan" ;; put_endl ;;
  robot <- Robot_new (of_int 0) (of_int 0) (of_int 0) ;;
  ret 0%Z.

Definition apply (o : Op) (this : Robot) : Prog Robot :=
  match o with
  | OpMove d => move d this
  | OpRotate a => rotate a this
  end.

Fixpoint run (ops : list Op) (this : Robot) : Prog Robot :=
  match ops with
  | [] => ret this
  | o :: rest => this' <- apply o this ;; run rest this'
  end.

End Methods.

End Proj4.

(** ** Auxiliary notions for the rounding of binary64 sums and products *)

(** The round bit as a number. *)
Definition b2z (b : bool) : Z := if b then 1 else 0.

(** [r] is what is left of the mantissa [m] after [n] right shifts. *)
Definition shr_inv (m n : Z) (r : shr_record) : Prop :=
  0 <= shr_m r /\
  exists low, 0 <= low < 2 ^ n
    /\ 2 * m = (2 * shr_m r + b2z (shr_r r)) * 2 ^ n + low
    /\ (shr_s r = false -> low = 0).

(** [(2^1024 - 2^970) * 2^1074]: the overflow threshold of binary64 (the
    largest finite number plus half a unit in its last place), on the
    scale of [scaled]. *)
Definition overflow_threshold : Z := (2 ^ 54 - 1) * 2 ^ 2044.

(** The exponent of a finite number is one binary64 has. *)
Definition exp_in_range (d : double) : bool :=
  match d with
  | S754_finite _ _ e => (-1074 <=? e) && (e <=? 971)
  | _ => true
  end.

(** No field of the pose is a NaN. *)
Definition pose_no_nan (p : Pose) : bool :=
  let '(px, py, pa) := p in
  negb (is_nan px) && negb (is_nan py) && negb (is_nan pa).

(** The arguments of the [rotate] calls of a sequence, in order. *)
Fixpoint rotations (ops : list Op) : list double :=
  match ops with
  | [] => []
  | OpMove _ :: rest => rotations rest
  | OpRotate c :: rest => c :: rotations rest
  end.

(** The call is a [rotate]. *)
Definition is_rotate (o : Op) : bool :=
  match o with OpRotate _ => true | OpMove _ => false end.

(** Number of newline characters of a text. *)
Fixpoint count_newlines (s : string) : nat :=
  match s with
  | EmptyString => O
  | String c r =>
      ((if Ascii.eqb c (ascii_of_nat 10) then 1 else 0) + count_newlines r)%nat
  end.

(** ** What one call does *)

Local Open Scope string_scope.

(** The line [move] prints for the new position. *)
Definition move_line (x' y' : double) : string :=
  "Robot moved to (" ++ Ostream.show_double x' ++ ", "
    ++ Ostream.show_double y' ++ ")" ++ Ostream.newline.

(** The line [rotate] prints for the new heading. *)
Definition rotate_line (angle' : double) : string :=
  "Robot rotated to " ++ Ostream.show_double angle' ++ " radians"
    ++ Ostream.newline.

(** The world after a call that printed [line] and was logged as [c]. *)
Definition after_call (w : World) (line : string) (c : Call) : World :=
  {| cout := cout w ++ line; calls := calls w ++ [c] |}.

(** Numeric agreement that also holds for NaN: the same representation,
    or two zeros (of either sign). *)
Definition same_value (a b : double) : Prop :=
  a = b \/ (is_zero a = true /\ is_zero b = true).

Definition pose_finite (p : Pose) : bool :=
  let '(px, py, pa) := p in is_finite px && is_finite py && is_finite pa.

Definition is_ctor_call (c : Call) : bool :=
  match c with CallRobot _ _ _ => true | _ => false end.

Definition is_method_call (c : Call) : bool :=
  match c with CallMove _ | CallRotate _ => true | _ => false end.

Definition count_calls (f : Call -> bool) (w : World) : nat :=
  List.length (List.filter f (calls w)).

(** The literals of [main]. *)
Definition lit_0 : double := of_int 0.
Definition lit_1_0 : double := of_dyadic 1 0.
Definition lit_0_5 : double := of_dyadic 1 (-1).

Lemma append_assoc (a b c : string) : (a ++ b) ++ c = a ++ (b ++ c).
Proof.
  induction a as [|ch a IH]; simpl; [reflexivity | now rewrite IH].
Qed.

Lemma append_nil_r (a : string) : a ++ EmptyString = a.
Proof.
  induction a as [|ch a IH]; simpl; [reflexivity | now rewrite IH].
Qed.

Lemma append_inj_l (a b c : string) : a ++ b = a ++ c -> b = c.
Proof.
  induction a as [|ch a IH]; simpl; intros H; [exact H | injection H; auto].
Qed.

Section Calls.
  Context {L : Libm}.

Lemma move_M1 (d : double) (r : ProjM1.Robot) (w : World) :
  ProjM1.move d r w =
  (ProjM1.Build_Robot (ProjM1.x r [+] d [*] cos (ProjM1.angle r))
                     (ProjM1.y r [+] d [*] sin (ProjM1.angle r)) (ProjM1.angle r),
   after_call w (move_line (ProjM1.x r [+] d [*] cos (ProjM1.angle r))
                           (ProjM1.y r [+] d [*] sin (ProjM1.angle r)))
     (CallMove d)).
Proof.
  unfold ProjM1.move, after_call, move_line, bind, ret, log_call,
    put_double, put_endl, put_string; simpl.
  now rewrite !append_assoc.
Qed.

Lemma rotate_M1 (a : double) (r : ProjM1.Robot) (w : World) :
  ProjM1.rotate a r w =
  (ProjM1.Build_Robot (ProjM1.x r) (ProjM1.y r) (ProjM1.angle r [+] a),
   after_call w (rotate_line (ProjM1.angle r [+] a)) (CallRotate a)).
Proof.
  unfold ProjM1.rotate, after_call, rotate_line, bind, ret, log_call,
    put_double, put_endl, put_string; simpl.
  now rewrite !append_assoc.
Qed.

Lemma move_4 (d : double) (r : Proj4.Robot) (w : World) :
  Proj4.move d r w =
  (Proj4.Build_Robot (Proj4.x r [+] d [*] cos (Proj4.angle r))
                     (Proj4.y r [+] d [*] sin (Proj4.angle r)) (Proj4.angle r),
   after_call w (move_line (Proj4.x r [+] d [*] cos (Proj4.angle r))
                           (Proj4.y r [+] d [*] sin (Proj4.angle r)))
     (CallMove d)).
Proof.
  unfold Proj4.move, after_call, move_line, bind, ret, log_call,
    put_double, put_endl, put_string; simpl.
  now rewrite !append_assoc.
Qed.

Lemma rotate_4 (a : double) (r : Proj4.Robot) (w : World) :
  Proj4.rotate a r w =
  (Proj4.Build_Robot (Proj4.x r) (Proj4.y r) (Proj4.angle r [+] a),
   after_call w (rotate_line (Proj4.angle r [+] a)) (CallRotate a)).
Proof.
  unfold Proj4.rotate, after_call, rotate_line, bind, ret, log_call,
    put_double, put_endl, put_string; simpl.
  now rewrite !append_assoc.
Qed.

End Calls.

(** ** The state update of [move] and [rotate] *)

(** C1: for every pose and every distance (finite or not), [move] stores
    [x + distance * cos(angle)] in [x] and [y + distance * sin(angle)] in
    [y], computed in binary64, and leaves [angle] as it was; in both
    variants. *)
Theorem move_updates_position (L : Libm) (x0 y0 a d : double) (w : World) :
  ProjM1.pose (fst (ProjM1.move d (ProjM1.Build_Robot x0 y0 a) w))
    = (x0 [+] d [*] cos a, y0 [+] d [*] sin a, a)
  /\ Proj4.pose (fst (Proj4.move d (Proj4.Build_Robot x0 y0 a) w))
    = (x0 [+] d [*] cos a, y0 [+] d [*] sin a, a).
Proof.
  rewrite move_M1, move_4. split; reflexivity.
Qed.

Lemma ltb_finite_inf (B : double) :
  is_finite B = true -> ltb B pos_inf = true.
Proof.
  destruct B as [s|s| |s m e]; simpl; intros H; try discriminate;
    reflexivity.
Qed.

(** C2: for every pose and every angle change, [rotate] stores
    [angle + angle_change] (binary64 addition, nothing else applied to it)
    and leaves [x] and [y] as they were, in both variants.  The stored
    heading is not kept in any range: two rotations by the largest finite
    double from heading 0 leave it above any finite bound [B]. *)
Theorem rotate_adds_angle_change (x0 y0 a c B : double) (w : World)
    (HB : is_finite B = true) :
  ProjM1.pose (fst (ProjM1.rotate c (ProjM1.Build_Robot x0 y0 a) w))
    = (x0, y0, a [+] c)
  /\ Proj4.pose (fst (Proj4.rotate c (Proj4.Build_Robot x0 y0 a) w))
    = (x0, y0, a [+] c)
  /\ (let (r1, w1) := ProjM1.rotate max_double (ProjM1.Build_Robot x0 y0 lit_0) w in
      let (r2, w2) := ProjM1.rotate max_double r1 w1 in
      is_finite max_double = true /\ ltb B (ProjM1.angle r2) = true).
Proof.
  rewrite !rotate_M1, rotate_4. cbv beta iota zeta.
  repeat split; try reflexivity.
  cbn [ProjM1.angle].
  replace (lit_0 [+] max_double [+] max_double) with pos_inf
    by (vm_compute; reflexivity).
  now apply ltb_finite_inf.
Qed.

Lemma rotate_adds_angle_change_witness :
  ProjM1.pose (fst (ProjM1.rotate lit_0_5 (ProjM1.Build_Robot lit_1_0 lit_0 lit_0) empty_world))
    = (lit_1_0, lit_0, lit_0 [+] lit_0_5)
  /\ ltb lit_1_0 (lit_0 [+] max_double [+] max_double) = true.
Proof.
  pose proof (rotate_adds_angle_change lit_1_0 lit_0 lit_0 lit_0_5 lit_1_0
                empty_world eq_refl) as (H1 & _ & H3).
  split; [exact H1|].
  rewrite !rotate_M1 in H3. exact (proj2 H3).
Defined.

(** ** The entry points *)


(** C8: if the math library has [cos(0) = 1] and [sin(0)] a zero, then from
    [Robot(0, 0, 0)] the call [move(1.0)] stores [x = 1] and [y = 0] and
    prints [Robot moved to (1, 0)]; the following [rotate(0.5)] stores
    [angle = 0.5] and prints [Robot rotated to 0.5 radians]. *)
Theorem scenario_move_then_rotate (L : Libm) (w : World)
    (Hcos : cos pos_zero = lit_1_0)
    (Hsin : is_zero (sin pos_zero) = true) :
  let (r1, w1) := ProjM1.move lit_1_0 (ProjM1.Build_Robot lit_0 lit_0 lit_0) w in
  let (r2, w2) := ProjM1.rotate lit_0_5 r1 w1 in
  ProjM1.pose r1 = (lit_1_0, pos_zero, pos_zero)
  /\ cout w1 = cout w ++ "Robot moved to (1, 0)" ++ Ostream.newline
  /\ ProjM1.pose r2 = (lit_1_0, pos_zero, lit_0_5)
  /\ cout w2 = cout w1 ++ "Robot rotated to 0.5 radians" ++ Ostream.newline.
Proof.
  rewrite move_M1. cbv beta iota zeta. rewrite rotate_M1. cbv beta iota zeta.
  cbn [ProjM1.x ProjM1.y ProjM1.angle ProjM1.pose after_call cout].
  change lit_0 with pos_zero. rewrite Hcos.
  assert (Hy : pos_zero [+] lit_1_0 [*] sin pos_zero = pos_zero).
  { destruct (sin pos_zero) as [[|]| | |]; try discriminate; reflexivity. }
  rewrite Hy.
  replace (pos_zero [+] lit_1_0 [*] lit_1_0) with lit_1_0
    by (vm_compute; reflexivity).
  replace (pos_zero [+] lit_0_5) with lit_0_5 by (vm_compute; reflexivity).
  repeat split; reflexivity.
Qed.

Lemma scenario_move_then_rotate_witness :
  let (r1, w1) := @ProjM1.move poly_libm lit_1_0
                    (ProjM1.Build_Robot lit_0 lit_0 lit_0) empty_world in
  let (r2, w2) := ProjM1.rotate lit_0_5 r1 w1 in
  ProjM1.pose r1 = (lit_1_0, pos_zero, pos_zero)
  /\ cout w1 = cout empty_world ++ "Robot moved to (1, 0)" ++ Ostream.newline
  /\ ProjM1.pose r2 = (lit_1_0, pos_zero, lit_0_5)
  /\ cout w2 = cout w1 ++ "Robot rotated to 0.5 radians" ++ Ostream.newline.
Proof.
  exact (scenario_move_then_rotate poly_libm empty_world eq_refl eq_refl).
Defined.

(** The whole output of [projects/-1] with the polynomial math library. *)
Example main_M1_output :
  cout (snd (@ProjM1.main poly_libm empty_world))
  = "Robot C++ Example" ++ Ostream.newline
    ++ "Robot moved to (1, 0)" ++ Ostream.newline
    ++ "Robot rotated to 0.5 radians" ++ Ostream.newline.
Proof.
  vm_compute. reflexivity.
Qed.

(** ** The two variants against each other *)

(** C9: from the same pose and the same world, any sequence of [move] and
    [rotate] calls leaves the [Robot] of [projects/-1] and the [Robot] of
    [projects/4] with the same pose, the same text on [std::cout] and the
    same call log. *)
Theorem variants_agree (L : Libm) (ops : list Op) (x0 y0 a : double)
    (w : World) :
  ProjM1.pose (fst (ProjM1.run ops (ProjM1.Build_Robot x0 y0 a) w))
    = Proj4.pose (fst (Proj4.run ops (Proj4.Build_Robot x0 y0 a) w))
  /\ snd (ProjM1.run ops (ProjM1.Build_Robot x0 y0 a) w)
     = snd (Proj4.run ops (Proj4.Build_Robot x0 y0 a) w).
Proof.
  revert x0 y0 a w.
  induction ops as [|o ops IH]; intros x0 y0 a w.
  - split; reflexivity.
  - cbn [ProjM1.run Proj4.run]. unfold bind.
    destruct o as [d|c]; cbn [ProjM1.apply Proj4.apply].
    + rewrite move_M1, move_4. cbv beta iota zeta. apply IH.
    + rewrite rotate_M1, rotate_4. cbv beta iota zeta. apply IH.
Qed.

(** C10: the pose a call leaves and the line it prints are functions of the
    pose it starts from and of its argument: run in two different worlds,
    the same call gives the same pose and appends the same line. *)
Theorem calls_deterministic (L : Libm) (x0 y0 a arg : double)
    (w1 w2 : World) :
  (exists r' line,
      ProjM1.move arg (ProjM1.Build_Robot x0 y0 a) w1
        = (r', after_call w1 line (CallMove arg))
      /\ ProjM1.move arg (ProjM1.Build_Robot x0 y0 a) w2
        = (r', after_call w2 line (CallMove arg)))
  /\ (exists r' line,
      ProjM1.rotate arg (ProjM1.Build_Robot x0 y0 a) w1
        = (r', after_call w1 line (CallRotate arg))
      /\ ProjM1.rotate arg (ProjM1.Build_Robot x0 y0 a) w2
        = (r', after_call w2 line (CallRotate arg)))
  /\ (exists r' line,
      Proj4.move arg (Proj4.Build_Robot x0 y0 a) w1
        = (r', after_call w1 line (CallMove arg))
      /\ Proj4.move arg (Proj4.Build_Robot x0 y0 a) w2
        = (r', after_call w2 line (CallMove arg)))
  /\ (exists r' line,
      Proj4.rotate arg (Proj4.Build_Robot x0 y0 a) w1
        = (r', after_call w1 line (CallRotate arg))
      /\ Proj4.rotate arg (Proj4.Build_Robot x0 y0 a) w2
        = (r', after_call w2 line (CallRotate arg))).
Proof.
  rewrite !move_M1, !rotate_M1, !move_4, !rotate_4. cbv beta iota zeta.
  repeat split; do 2 eexists; split; reflexivity.
Qed.

(** ** Zero and non-finite arguments *)

Lemma add_zero_r (a z : double) :
  is_zero z = true -> same_value (a [+] z) a.
Proof.
  destruct z as [sz| | |]; try discriminate. intros _.
  destruct a as [[|]|sa| |sa ma ea]; destruct sz;
    try (left; reflexivity); right; split; reflexivity.
Qed.

Lemma mul_zero_l (z c : double) :
  is_zero z = true -> is_finite c = true -> is_zero (z [*] c) = true.
Proof.
  destruct z as [sz| | |]; try discriminate. intros _.
  destruct c as [sc|sc| |sc mc ec]; try discriminate; reflexivity.
Qed.

Lemma add_nonfinite_r (a b : double) :
  is_finite b = false -> is_finite (a [+] b) = false.
Proof.
  destruct b as [sb|[|]| |sb mb eb]; try discriminate; intros _;
    destruct a as [sa|[|]| |sa ma ea]; reflexivity.
Qed.

Lemma mul_nonfinite_l (a b : double) :
  is_finite a = false -> is_finite (a [*] b) = false.
Proof.
  destruct a as [sa|sa| |sa ma ea]; try discriminate; intros _;
    destruct b as [sb|sb| |sb mb eb]; reflexivity.
Qed.

Lemma mul_zero_nonfinite (z c : double) :
  is_zero z = true -> is_finite c = false -> z [*] c = nan.
Proof.
  destruct z as [sz| | |]; try discriminate. intros _.
  destruct c as [sc|sc| |sc mc ec]; try discriminate; reflexivity.
Qed.

Lemma add_nan_r (a : double) : a [+] nan = nan.
Proof. destruct a; reflexivity. Qed.

(** C6, as the code has it: [move(0)] (with a zero of either sign) leaves
    [x] with the value it had when [cos] of the heading is finite, and [y]
    when [sin] is: the same representation, except that a zero coordinate
    may come out with the other sign.  When [cos] (resp. [sin]) of the
    heading is not finite, as for a heading that is an infinity or a NaN,
    [move(0)] stores NaN in [x] (resp. [y]), whatever the coordinate was. *)
Theorem move_zero_keeps_position (L : Libm) (x0 y0 a d : double) (w : World)
    (Hd : is_zero d = true) :
  let r1 := fst (ProjM1.move d (ProjM1.Build_Robot x0 y0 a) w) in
  let r4 := fst (Proj4.move d (Proj4.Build_Robot x0 y0 a) w) in
  (is_finite (cos a) = true ->
   same_value (ProjM1.x r1) x0 /\ same_value (Proj4.x r4) x0)
  /\ (is_finite (sin a) = true ->
      same_value (ProjM1.y r1) y0 /\ same_value (Proj4.y r4) y0)
  /\ (is_finite (cos a) = false -> ProjM1.x r1 = nan /\ Proj4.x r4 = nan)
  /\ (is_finite (sin a) = false -> ProjM1.y r1 = nan /\ Proj4.y r4 = nan).
Proof.
  rewrite move_M1, move_4. cbn [fst ProjM1.x ProjM1.y ProjM1.angle
                                   Proj4.x Proj4.y Proj4.angle].
  split; [|split; [|split]]; intros H.
  - split; apply add_zero_r; now apply mul_zero_l.
  - split; apply add_zero_r; now apply mul_zero_l.
  - rewrite (mul_zero_nonfinite d (cos a) Hd H), add_nan_r. now split.
  - rewrite (mul_zero_nonfinite d (sin a) Hd H), add_nan_r. now split.
Qed.

Lemma move_zero_keeps_position_witness :
  ProjM1.x (fst (@ProjM1.move annex_f_libm lit_0
                   (ProjM1.Build_Robot lit_1_0 neg_zero lit_0_5) empty_world))
    = lit_1_0
  /\ is_zero (ProjM1.y (fst (@ProjM1.move annex_f_libm lit_0
                   (ProjM1.Build_Robot lit_1_0 neg_zero lit_0_5) empty_world)))
     = true
  /\ ProjM1.x (fst (@ProjM1.move annex_f_libm lit_0
                   (ProjM1.Build_Robot lit_1_0 neg_zero nan) empty_world))
     = nan.
Proof.
  destruct (move_zero_keeps_position annex_f_libm lit_1_0 neg_zero lit_0_5
              lit_0 empty_world eq_refl) as (Hx & Hy & _ & _).
  destruct (move_zero_keeps_position annex_f_libm lit_1_0 neg_zero nan
              lit_0 empty_world eq_refl) as (_ & _ & Hn & _).
  split; [|split].
  - destruct (proj1 (Hx eq_refl)) as [E | [E _]];
      [exact E | vm_compute in E; discriminate].
  - destruct (proj1 (Hy eq_refl)) as [E | [E _]];
      [rewrite E; reflexivity | exact E].
  - exact (proj1 (Hn eq_refl)).
Defined.

(** [Robot(1, 0.5, INFINITY).move(0)]: the heading has no finite cosine or
    sine, and both coordinates become NaN. *)
Lemma move_zero_counterexample :
  let r := fst (@ProjM1.move annex_f_libm lit_0
                  (ProjM1.Build_Robot lit_1_0 lit_0_5 pos_inf) empty_world) in
  is_zero lit_0 = true
  /\ ProjM1.pose r = (nan, nan, pos_inf)
  /\ ~ same_value (ProjM1.x r) lit_1_0
  /\ ~ same_value (ProjM1.y r) lit_0_5.
Proof.
  cbv zeta. repeat split.
  - intros [E | [E _]]; vm_compute in E; discriminate.
  - intros [E | [E _]]; vm_compute in E; discriminate.
Defined.

(** C5: [move] and [rotate] return for every argument, finite or not: they
    are total, test nothing, and compute the new pose by the same formula
    throughout.  A non-finite [distance] leaves [x] and [y] non-finite and a
    non-finite [angle_change] leaves [angle] non-finite; the call prints its
    line all the same. *)
Theorem calls_total_and_unvalidated (L : Libm) (x0 y0 a arg : double)
    (w : World) :
  (exists x' y',
      ProjM1.move arg (ProjM1.Build_Robot x0 y0 a) w
        = (ProjM1.Build_Robot x' y' a,
           after_call w (move_line x' y') (CallMove arg))
      /\ x' = x0 [+] arg [*] cos a /\ y' = y0 [+] arg [*] sin a
      /\ Proj4.move arg (Proj4.Build_Robot x0 y0 a) w
        = (Proj4.Build_Robot x' y' a,
           after_call w (move_line x' y') (CallMove arg))
      /\ (is_finite arg = false ->
          is_finite x' = false /\ is_finite y' = false))
  /\ (exists a',
      ProjM1.rotate arg (ProjM1.Build_Robot x0 y0 a) w
        = (ProjM1.Build_Robot x0 y0 a',
           after_call w (rotate_line a') (CallRotate arg))
      /\ a' = a [+] arg
      /\ Proj4.rotate arg (Proj4.Build_Robot x0 y0 a) w
        = (Proj4.Build_Robot x0 y0 a',
           after_call w (rotate_line a') (CallRotate arg))
      /\ (is_finite arg = false -> is_finite a' = false)).
Proof.
  split.
  - exists (x0 [+] arg [*] cos a), (y0 [+] arg [*] sin a).
    rewrite move_M1, move_4.
    repeat split; try reflexivity;
      now apply add_nonfinite_r, mul_nonfinite_l.
  - exists (a [+] arg). rewrite rotate_M1, rotate_4.
    repeat split; try reflexivity. now apply add_nonfinite_r.
Qed.

Lemma calls_total_and_unvalidated_witness :
  is_finite (ProjM1.x (fst (@ProjM1.move poly_libm nan
               (ProjM1.Build_Robot lit_1_0 lit_0 lit_0_5) empty_world))) = false
  /\ is_finite (ProjM1.angle (fst (ProjM1.rotate pos_inf
               (ProjM1.Build_Robot lit_1_0 lit_0 lit_0_5) empty_world))) = false.
Proof.
  split.
  - destruct (calls_total_and_unvalidated poly_libm lit_1_0 lit_0 lit_0_5 nan
                empty_world) as [(x' & y' & Hm & Hx & _ & _ & Hnf) _].
    rewrite Hm. exact (proj1 (Hnf eq_refl)).
  - destruct (calls_total_and_unvalidated poly_libm lit_1_0 lit_0 lit_0_5
                pos_inf empty_world) as [_ (a' & Hr & _ & _ & Hnf)].
    rewrite Hr. exact (Hnf eq_refl).
Defined.

(** ** Rounding of binary64 sums and products

    [SFadd] and [SFmul] round the exact result with [binary_round_aux]:
    the mantissa is shifted right to 53 bits ([shr]), rounded to nearest
    even, and shifted once more if the rounding carried. *)

Local Open Scope Z_scope.

Lemma digits2_bounds (m : positive) :
  2 ^ (Zpos (digits2_pos m) - 1) <= Zpos m < 2 ^ Zpos (digits2_pos m).
Proof.
  induction m as [p IH|p IH|]; cbn [digits2_pos].
  - rewrite Pos2Z.inj_succ, Z.pow_succ_r by lia.
    replace (Z.succ (Zpos (digits2_pos p)) - 1) with (Z.succ (Zpos (digits2_pos p) - 1)) by lia.
    rewrite Z.pow_succ_r by lia. lia.
  - rewrite Pos2Z.inj_succ, Z.pow_succ_r by lia.
    replace (Z.succ (Zpos (digits2_pos p)) - 1) with (Z.succ (Zpos (digits2_pos p) - 1)) by lia.
    rewrite Z.pow_succ_r by lia. lia.
  - cbn. lia.
Qed.

Lemma digits2_unique (m : positive) (k : Z) :
  2 ^ (k - 1) <= Zpos m < 2 ^ k -> Zpos (digits2_pos m) = k.
Proof.
  intros [Hlo Hhi]. pose proof (digits2_bounds m) as [Dlo Dhi].
  set (d := Zpos (digits2_pos m)) in *.
  assert (0 < k).
  { destruct (Z_lt_le_dec 0 k) as [|Hk]; [assumption|].
    assert (2 ^ k <= 2 ^ 0) by (apply Z.pow_le_mono_r; lia).
    change (2 ^ 0) with 1 in *. lia. }
  destruct (Z.lt_trichotomy d k) as [Hlt|[Heq|Hgt]]; [|exact Heq|].
  - assert (2 ^ d <= 2 ^ (k - 1)) by (apply Z.pow_le_mono_r; lia). lia.
  - assert (2 ^ k <= 2 ^ (d - 1)) by (apply Z.pow_le_mono_r; lia). lia.
Qed.

Lemma shr_inv_start (m : Z) : 0 <= m -> shr_inv m 0 (Build_shr_record m false false).
Proof.
  intros Hm. split; [exact Hm|]. exists 0. cbn. repeat split; lia.
Qed.

Lemma shr_inv_step (m n : Z) (r : shr_record) :
  0 <= n -> shr_inv m n r -> shr_inv m (n + 1) (shr_1 r).
Proof.
  intros Hn [Hpos (low & Hlow & Heq & Hs)].
  destruct r as [q b s]. cbn [shr_m shr_r shr_s] in *.
  assert (Hp : 2 ^ (n + 1) = 2 * 2 ^ n) by (rewrite Z.pow_add_r by lia; lia).
  assert (Hb : 0 <= b2z b <= 1) by (destruct b; cbn; lia).
  assert (Hlow' : 0 <= b2z b * 2 ^ n + low < 2 ^ (n + 1)) by (rewrite Hp; destruct b; cbn [b2z]; lia).
  assert (Hs' : (b || s)%bool = false -> b2z b * 2 ^ n + low = 0).
  { intros Hbs. apply orb_false_elim in Hbs as [-> ->]. cbn. rewrite Hs; lia. }
  destruct q as [|[p|p|]|p]; [| | | | exfalso; lia];
    cbn [shr_1]; unfold shr_inv; cbn [shr_m shr_r shr_s]; (split; [lia|]);
    exists (b2z b * 2 ^ n + low); (split; [exact Hlow'|]);
    (split; [|exact Hs']); rewrite Hp; cbn [b2z]; rewrite Heq;
    try rewrite (Pos2Z.inj_xO p); try rewrite (Pos2Z.inj_xI p); ring.
Qed.

Lemma shr_inv_iter (m : Z) (p : positive) :
  forall (n : Z) (r : shr_record),
    0 <= n -> shr_inv m n r -> shr_inv m (n + Zpos p) (iter_pos shr_1 p r).
Proof.
  induction p as [p IH|p IH|]; intros n r Hn Hr; cbn [iter_pos].
  - replace (n + Zpos p~1) with (((n + 1) + Zpos p) + Zpos p) by lia.
    apply IH; [lia|]. apply IH; [lia|]. now apply shr_inv_step.
  - replace (n + Zpos p~0) with ((n + Zpos p) + Zpos p) by lia.
    apply IH; [lia|]. now apply IH.
  - now apply shr_inv_step.
Qed.

Lemma fexp_eq (e : Z) : fexp prec emax e = Z.max (e - 53) (-1074).
Proof. reflexivity. Qed.

Lemma shr_nonpos (mrs : shr_record) (e n : Z) :
  n <= 0 -> shr mrs e n = (mrs, e).
Proof.
  destruct n as [|p|p]; intros H; try reflexivity. lia.
Qed.

Lemma shr_pos (m e n : Z) :
  0 < n -> 0 <= m ->
  exists r, shr (Build_shr_record m false false) e n = (r, e + n)
            /\ shr_inv m n r.
Proof.
  destruct n as [|p|p]; intros Hn Hm; try lia.
  exists (iter_pos shr_1 p (Build_shr_record m false false)).
  split; [reflexivity|].
  change (Zpos p) with (0 + Zpos p).
  apply shr_inv_iter; [lia|]. now apply shr_inv_start.
Qed.

Lemma shr_inv_floor (m n : Z) (r : shr_record) :
  0 <= n -> shr_inv m n r ->
  shr_m r * 2 ^ n <= m < (shr_m r + 1) * 2 ^ n.
Proof.
  intros Hn [_ (low & Hlow & Heq & _)].
  assert (0 <= b2z (shr_r r) <= 1) by (destruct (shr_r r); cbn; lia).
  assert (0 < 2 ^ n) by (apply Z.pow_pos_nonneg; lia).
  set (P := 2 ^ n) in *. set (q := shr_m r) in *. set (b := b2z (shr_r r)) in *.
  assert (b * P <= P) by nia.
  assert (0 <= b * P) by nia.
  replace ((2 * q + b) * P) with (2 * (q * P) + b * P) in Heq by ring.
  replace ((q + 1) * P) with (q * P + P) by ring.
  lia.
Qed.

Lemma round_nearest_even_bounds (m n : Z) (r : shr_record) :
  0 <= n -> shr_inv m n r ->
  let m1 := round_nearest_even (shr_m r) (loc_of_shr_record r) in
  shr_m r <= m1 <= shr_m r + 1
  /\ - 2 ^ n <= 2 * (m1 * 2 ^ n) - 2 * m <= 2 ^ n.
Proof.
  intros Hn [Hq (low & Hlow & Heq & Hs)].
  assert (HP : 0 < 2 ^ n) by (apply Z.pow_pos_nonneg; lia).
  destruct r as [q b s]. cbn [shr_m shr_r shr_s] in *.
  set (P := 2 ^ n) in *.
  destruct b, s; cbn [loc_of_shr_record round_nearest_even b2z] in *.
  - replace ((2 * q + 1) * P) with (2 * (q * P) + P) in Heq by ring.
    replace ((q + 1) * P) with (q * P + P) by ring. lia.
  - specialize (Hs eq_refl). subst low.
    replace ((2 * q + 1) * P) with (2 * (q * P) + P) in Heq by ring.
    destruct (Z.even q).
    + lia.
    + replace ((q + 1) * P) with (q * P + P) by ring. lia.
  - replace ((2 * q + 0) * P) with (2 * (q * P)) in Heq by ring. lia.
  - replace ((2 * q + 0) * P) with (2 * (q * P)) in Heq by ring. lia.
Qed.

Lemma Zdigits2_unique (m k : Z) :
  0 < m -> 2 ^ (k - 1) <= m < 2 ^ k -> Zdigits2 m = k.
Proof.
  destruct m as [|p|p]; intros H; try lia. apply digits2_unique.
Qed.

Lemma shr_fexp_cases (m e : Z) :
  0 <= m ->
  let n := fexp prec emax (Zdigits2 m + e) - e in
  (n <= 0 /\ shr_fexp prec emax m e loc_Exact = (Build_shr_record m false false, e))
  \/ (0 < n /\ exists r, shr_fexp prec emax m e loc_Exact = (r, e + n)
                         /\ shr_inv m n r).
Proof.
  intros Hm n. unfold shr_fexp. cbn [shr_record_of_loc]. fold n.
  destruct (Z_le_gt_dec n 0) as [Hn|Hn].
  - left. split; [exact Hn|]. now apply shr_nonpos.
  - right. split; [lia|]. apply shr_pos; lia.
Qed.

Lemma shr_fexp_range (m e : Z) :
  0 <= m ->
  0 <= shr_m (fst (shr_fexp prec emax m e loc_Exact))
  /\ -1074 <= snd (shr_fexp prec emax m e loc_Exact).
Proof.
  intros Hm. destruct (shr_fexp_cases m e Hm) as [[Hn ->]|[Hn (r & -> & Hr)]];
    cbn [fst snd shr_m]; rewrite fexp_eq in Hn.
  - split; lia.
  - split; [apply Hr|]. rewrite fexp_eq. lia.
Qed.

Lemma round_nearest_even_nonneg (mrs : shr_record) :
  0 <= shr_m mrs ->
  0 <= round_nearest_even (shr_m mrs) (loc_of_shr_record mrs).
Proof.
  destruct mrs as [q [|] [|]]; cbn [shr_m loc_of_shr_record round_nearest_even];
    intros H; try lia. destruct (Z.even q); lia.
Qed.

(** Rounding a positive mantissa gives a zero, an infinity or a finite
    number whose exponent is in the binary64 range, with the given sign. *)
Lemma binary_round_aux_shape (sx : bool) (m e : Z) :
  0 <= m ->
  let R := binary_round_aux prec emax sx m e loc_Exact in
  R = S754_zero sx \/ R = S754_infinity sx
  \/ exists m' e', R = S754_finite sx m' e' /\ -1074 <= e' <= 971.
Proof.
  intros Hm R. subst R. unfold binary_round_aux.
  pose proof (shr_fexp_range m e Hm) as [H1 _].
  destruct (shr_fexp prec emax m e loc_Exact) as [mrs' e'].
  cbn [fst] in H1.
  pose proof (round_nearest_even_nonneg mrs' H1) as H2.
  pose proof (shr_fexp_range _ e' H2) as [H3 H4].
  destruct (shr_fexp prec emax _ e' loc_Exact) as [mrs'' e''].
  cbn [fst snd] in H3, H4.
  destruct (shr_m mrs'') as [|p|p]; [now left| |lia].
  right. change (emax - prec) with 971.
  destruct (Z.leb_spec e'' 971); [right|now left].
  exists p, e''. split; [reflexivity | lia].
Qed.

Lemma iter_xO_value (m k : positive) :
  Zpos (Pos.iter xO m k) = Zpos m * 2 ^ Zpos k.
Proof.
  induction k as [|k IH] using Pos.peano_ind.
  - cbn [Pos.iter]. rewrite Pos2Z.inj_xO. change (2 ^ 1) with 2. ring.
  - rewrite Pos.iter_succ, Pos2Z.inj_xO, IH, Pos2Z.inj_succ, Z.pow_succ_r by lia.
    ring.
Qed.

Lemma iter_xO_digits (m k : positive) :
  Zpos (digits2_pos (Pos.iter xO m k)) = Zpos (digits2_pos m) + Zpos k.
Proof.
  induction k as [|k IH] using Pos.peano_ind.
  - cbn [Pos.iter digits2_pos]. lia.
  - rewrite Pos.iter_succ. cbn [digits2_pos]. lia.
Qed.

(** A mantissa that needs no shift is kept as it is. *)
Lemma binary_round_aux_exact (sx : bool) (m : positive) (e : Z) :
  fexp prec emax (Zpos (digits2_pos m) + e) <= e ->
  binary_round_aux prec emax sx (Zpos m) e loc_Exact
  = if e <=? 971 then S754_finite sx m e else S754_infinity sx.
Proof.
  intros Hf. unfold binary_round_aux.
  assert (Hs : shr_fexp prec emax (Zpos m) e loc_Exact
               = (Build_shr_record (Zpos m) false false, e)).
  { unfold shr_fexp. cbn [shr_record_of_loc Zdigits2]. apply shr_nonpos. lia. }
  rewrite Hs. cbn [shr_m loc_of_shr_record round_nearest_even].
  rewrite Hs. cbn [shr_m]. reflexivity.
Qed.

Lemma scaled_error_bound (m1 P m E : Z) :
  0 < P -> 0 < E -> 2 ^ 52 <= m1 ->
  - P <= 2 * (m1 * P) - 2 * m <= P ->
  2 ^ 53 * Z.abs (m1 * (P * E) - m * E) <= m1 * (P * E).
Proof.
  intros HP HE Hm1 Herr.
  replace (m1 * (P * E) - m * E) with ((m1 * P - m) * E) by ring.
  rewrite Z.abs_mul, (Z.abs_eq E) by lia.
  replace (m1 * (P * E)) with (m1 * P * E) by ring.
  rewrite Z.mul_assoc. apply Z.mul_le_mono_nonneg_r; [lia|].
  assert (2 ^ 52 * P <= m1 * P) by (apply Z.mul_le_mono_nonneg_r; lia).
  change (2 ^ 53) with (2 * 2 ^ 52). change (2 ^ 52) with 4503599627370496 in *.
  lia.
Qed.

Lemma binary_round_aux_normal (sx : bool) (m : positive) (e : Z) :
  53 < Zpos (digits2_pos m) -> -1074 <= e ->
  let R := binary_round_aux prec emax sx (Zpos m) e loc_Exact in
  (exists m' e',
      R = S754_finite sx m' e' /\ -1074 <= e' <= 971
      /\ 2 ^ 53 * Z.abs (Zpos m' * 2 ^ (e' + 1074) - Zpos m * 2 ^ (e + 1074))
         <= Zpos m' * 2 ^ (e' + 1074))
  \/ (R = S754_infinity sx /\ overflow_threshold <= Zpos m * 2 ^ (e + 1074)).
Proof.
  intros Hd He R. subst R.
  set (d := Zpos (digits2_pos m)) in *.
  set (n := d - 53).
  assert (Hn : 0 < n) by (unfold n; lia).
  assert (Hfe : fexp prec emax (Zdigits2 (Zpos m) + e) - e = n).
  { rewrite fexp_eq. cbn [Zdigits2]. fold d. unfold n. lia. }
  unfold binary_round_aux.
  destruct (shr_fexp_cases (Zpos m) e) as [[Hle _]|[_ (r & Hs & Hr)]]; [lia|lia|].
  rewrite Hfe in Hs, Hr. rewrite Hs. clear Hs Hfe.
  pose proof (shr_inv_floor _ _ _ (Z.lt_le_incl _ _ Hn) Hr) as Hfloor.
  pose proof (round_nearest_even_bounds _ _ _ (Z.lt_le_incl _ _ Hn) Hr) as [Hm1 Herr].
  set (m1 := round_nearest_even (shr_m r) (loc_of_shr_record r)) in *.
  set (q := shr_m r) in *.
  assert (HP : 0 < 2 ^ n) by (apply Z.pow_pos_nonneg; lia).
  assert (HE : 0 < 2 ^ (e + 1074)) by (apply Z.pow_pos_nonneg; lia).
  pose proof (digits2_bounds m) as [Dlo Dhi]. fold d in Dlo, Dhi.
  assert (Hd1 : 2 ^ (d - 1) = 2 ^ 52 * 2 ^ n).
  { replace (d - 1) with (52 + n) by (unfold n; lia). apply Z.pow_add_r; lia. }
  assert (Hd2 : 2 ^ d = 2 ^ 53 * 2 ^ n).
  { replace d with (53 + n) at 1 by (unfold n; lia). apply Z.pow_add_r; lia. }
  rewrite Hd1 in Dlo. rewrite Hd2 in Dhi.
  set (P := 2 ^ n) in *. set (E := 2 ^ (e + 1074)) in *.
  assert (Hq : 2 ^ 52 <= q < 2 ^ 53).
  { split.
    - apply Z.lt_succ_r. apply (Z.mul_lt_mono_pos_r P); [exact HP|].
      unfold Z.succ. lia.
    - apply (Z.mul_lt_mono_pos_r P); [exact HP|]. lia. }
  assert (Hpe : forall k, 0 <= k -> 2 ^ (e + n + k + 1074) = 2 ^ k * (P * E)).
  { intros k Hk. replace (e + n + k + 1074) with (k + (n + (e + 1074))) by lia.
    rewrite !Z.pow_add_r by lia. reflexivity. }
  assert (Hlow : 2 ^ 52 * P * E <= Zpos m * E).
  { apply Z.mul_le_mono_nonneg_r; lia. }
  destruct (Z.eq_dec m1 (2 ^ 53)) as [Hc|Hc].
  - (* the rounded mantissa has 54 bits and is shifted once more *)
    assert (Hs2 : shr_fexp prec emax m1 (e + n) loc_Exact
                  = (Build_shr_record (2 ^ 52) false false, e + n + 1)).
    { rewrite Hc. unfold shr_fexp. rewrite fexp_eq.
      change (Zdigits2 (2 ^ 53)) with 54.
      replace (Z.max (54 + (e + n) - 53) (-1074) - (e + n)) with 1 by lia.
      reflexivity. }
    rewrite Hs2. cbn [shr_m]. change (2 ^ 52) with (Zpos 4503599627370496).
    cbv beta iota. change (emax - prec) with 971.
    assert (Hval : Zpos 4503599627370496 * 2 ^ (e + n + 1 + 1074) = m1 * (P * E)).
    { rewrite (Hpe 1) by lia. rewrite Hc. change (2 ^ 53) with (2 * 2 ^ 52).
      change (2 ^ 52) with 4503599627370496. change (2 ^ 1) with 2. ring. }
    destruct (Z.leb_spec (e + n + 1) 971) as [Hfin|Hinf].
    + left. exists 4503599627370496%positive, (e + n + 1).
      split; [reflexivity|]. split; [lia|].
      rewrite Hval. apply scaled_error_bound; lia.
    + right. split; [reflexivity|]. unfold overflow_threshold.
      assert (H2 : (2 ^ 54 - 1) * P <= 2 * Zpos m).
      { rewrite Hc in Herr. change (2 ^ 54) with (2 * 2 ^ 53).
        change (2 ^ 53) with 9007199254740992 in *. lia. }
      assert (H3 : 2 * 2 ^ 2044 <= P * E).
      { specialize (Hpe 0 ltac:(lia)). change (2 ^ 0) with 1 in Hpe.
        rewrite Z.mul_1_l in Hpe. rewrite <- Hpe.
        change (2 * 2 ^ 2044) with (2 ^ 2045).
        apply Z.pow_le_mono_r; lia. }
      assert (H4 : (2 ^ 54 - 1) * P * E <= 2 * Zpos m * E).
      { apply Z.mul_le_mono_nonneg_r; lia. }
      assert (H5 : (2 ^ 54 - 1) * (2 * 2 ^ 2044) <= (2 ^ 54 - 1) * (P * E)).
      { apply Z.mul_le_mono_nonneg_l; [|exact H3].
        change (2 ^ 54) with 18014398509481984. lia. }
      set (T := 2 ^ 2044) in *. set (C := 2 ^ 54 - 1) in *.
      replace (C * P * E) with (C * (P * E)) in H4 by ring.
      replace (C * (2 * T)) with (2 * (C * T)) in H5 by ring.
      replace (2 * Zpos m * E) with (2 * (Zpos m * E)) in H4 by ring.
      lia.
  - (* the rounded mantissa has 53 bits *)
    assert (Hm1r : 2 ^ 52 <= m1 < 2 ^ 53) by lia.
    assert (Hs2 : shr_fexp prec emax m1 (e + n) loc_Exact
                  = (Build_shr_record m1 false false, e + n)).
    { unfold shr_fexp. rewrite fexp_eq.
      rewrite (Zdigits2_unique m1 53) by (change (53 - 1) with 52; lia).
      cbn [shr_record_of_loc]. apply shr_nonpos. lia. }
    rewrite Hs2. cbn [shr_m].
    destruct m1 as [|p|p] eqn:Em1; [lia| |lia].
    cbv beta iota. change (emax - prec) with 971.
    assert (Hval : Zpos p * 2 ^ (e + n + 1074) = Zpos p * (P * E)).
    { specialize (Hpe 0 ltac:(lia)). change (2 ^ 0) with 1 in Hpe.
      rewrite Z.mul_1_l in Hpe.
      replace (e + n + 1074) with (e + n + 0 + 1074) by lia. now rewrite Hpe. }
    destruct (Z.leb_spec (e + n) 971) as [Hfin|Hinf].
    + left. exists p, (e + n). split; [reflexivity|]. split; [lia|].
      rewrite Hval. apply scaled_error_bound; lia.
    + right. split; [reflexivity|]. unfold overflow_threshold.
      assert (H3 : 2 ^ 2046 <= P * E).
      { specialize (Hpe 0 ltac:(lia)). change (2 ^ 0) with 1 in Hpe.
        rewrite Z.mul_1_l in Hpe. rewrite <- Hpe.
        apply Z.pow_le_mono_r; lia. }
      assert (H5 : 2 ^ 52 * 2 ^ 2046 <= 2 ^ 52 * (P * E)).
      { apply Z.mul_le_mono_nonneg_l; [|exact H3]. apply Z.pow_nonneg. lia. }
      change (2 ^ 2046) with (4 * 2 ^ 2044) in H5.
      replace (2 ^ 52 * P * E) with (2 ^ 52 * (P * E)) in Hlow by ring.
      set (T := 2 ^ 2044) in *.
      change (2 ^ 54) with 18014398509481984.
      change (2 ^ 52) with 4503599627370496 in *.
      assert (0 < T) by (apply Z.pow_pos_nonneg; lia).
      lia.
Qed.

Lemma binary_round_spec (sx : bool) (m : positive) (e : Z) :
  -1074 <= e <= 971 ->
  let R := binary_round prec emax sx m e in
  (exists m' e',
      R = S754_finite sx m' e' /\ -1074 <= e' <= 971
      /\ 2 ^ 53 * Z.abs (Zpos m' * 2 ^ (e' + 1074) - Zpos m * 2 ^ (e + 1074))
         <= Zpos m' * 2 ^ (e' + 1074))
  \/ (R = S754_infinity sx /\ overflow_threshold <= Zpos m * 2 ^ (e + 1074)).
Proof.
  intros He R. subst R. unfold binary_round, shl_align.
  pose proof (fexp_eq (Zpos (digits2_pos m) + e)) as Hf.
  set (f := fexp prec emax (Zpos (digits2_pos m) + e)) in *.
  destruct (f - e) as [|k|k] eqn:Hfe.
  - rewrite binary_round_aux_exact by (fold f; lia).
    destruct (Z.leb_spec e 971); [|lia].
    left. exists m, e. split; [reflexivity|]. split; [lia|].
    rewrite Z.sub_diag. cbn [Z.abs]. rewrite Z.mul_0_r.
    apply Z.mul_nonneg_nonneg; [lia|]. apply Z.pow_nonneg. lia.
  - apply binary_round_aux_normal; lia.
  - assert (Hk : Zpos k = e - f) by lia.
    rewrite binary_round_aux_exact.
    2:{ rewrite iter_xO_digits.
        replace (Zpos (digits2_pos m) + Zpos k + f)
          with (Zpos (digits2_pos m) + e) by lia.
        fold f. lia. }
    destruct (Z.leb_spec f 971); [|lia].
    left. exists (Pos.iter xO m k), f. split; [reflexivity|]. split; [lia|].
    rewrite iter_xO_value.
    replace (Zpos m * 2 ^ Zpos k * 2 ^ (f + 1074)) with (Zpos m * 2 ^ (e + 1074)).
    2:{ rewrite <- Z.mul_assoc, <- Z.pow_add_r by lia. f_equal. f_equal. lia. }
    rewrite Z.sub_diag. cbn [Z.abs]. rewrite Z.mul_0_r.
    apply Z.mul_nonneg_nonneg; [lia|]. apply Z.pow_nonneg. lia.
Qed.

Lemma valid_exp_in_range (d : double) : valid d = true -> exp_in_range d = true.
Proof.
  destruct d as [s|s| |s m e]; try reflexivity.
  unfold valid, valid_binary, bounded, canonical_mantissa. cbn [exp_in_range].
  rewrite fexp_eq. change (emax - prec) with 971.
  intros H. apply andb_true_iff in H as [H1 H2].
  apply Z.eqb_eq in H1. apply Z.leb_le in H2.
  apply andb_true_iff. split; [apply Z.leb_le | apply Z.leb_le]; lia.
Qed.

Lemma cond_Zopp_mul (s : bool) (x E : Z) :
  cond_Zopp s (x * E) = cond_Zopp s x * E.
Proof. destruct s; cbn [cond_Zopp]; ring. Qed.

Lemma shl_align_value (m : positive) (e e' : Z) :
  -1074 <= e' <= e ->
  Zpos (fst (shl_align m e e')) * 2 ^ (e' + 1074) = Zpos m * 2 ^ (e + 1074).
Proof.
  intros H. unfold shl_align. destruct (e' - e) as [|k|k] eqn:Hk;
    cbn [fst]; [replace e' with e by lia; reflexivity | lia |].
  rewrite iter_xO_value, <- Z.mul_assoc, <- Z.pow_add_r by lia.
  f_equal. f_equal. lia.
Qed.

Lemma binary_normalize_spec (M ez : Z) :
  -1074 <= ez <= 971 ->
  let R := binary_normalize prec emax M ez false in
  (is_finite R = true /\ exp_in_range R = true
   /\ 2 ^ 53 * Z.abs (scaled R - M * 2 ^ (ez + 1074)) <= Z.abs (scaled R))
  \/ (exists s, R = S754_infinity s
                /\ overflow_threshold <= Z.abs (M * 2 ^ (ez + 1074))).
Proof.
  intros He R. subst R.
  assert (HE : 0 < 2 ^ (ez + 1074)) by (apply Z.pow_pos_nonneg; lia).
  destruct M as [|m|m]; cbn [binary_normalize].
  - left. cbn. repeat split; lia.
  - destruct (binary_round_spec false m ez He)
      as [(m' & e' & -> & Hr & Hb)|[-> Ho]].
    + left. cbn [is_finite exp_in_range scaled cond_Zopp].
      split; [reflexivity|]. split.
      * apply andb_true_iff; split; apply Z.leb_le; lia.
      * rewrite (Z.abs_eq (Zpos m' * _)); [exact Hb|].
        apply Z.mul_nonneg_nonneg; [lia|]. apply Z.pow_nonneg. lia.
    + right. exists false. split; [reflexivity|].
      rewrite Z.abs_eq; [exact Ho|]. apply Z.mul_nonneg_nonneg; lia.
  - destruct (binary_round_spec true m ez He)
      as [(m' & e' & -> & Hr & Hb)|[-> Ho]].
    + left. cbn [is_finite exp_in_range scaled cond_Zopp].
      split; [reflexivity|]. split.
      * apply andb_true_iff; split; apply Z.leb_le; lia.
      * rewrite Z.abs_opp.
        rewrite (Z.abs_eq (Zpos m' * _))
          by (apply Z.mul_nonneg_nonneg; [lia|]; apply Z.pow_nonneg; lia).
        replace (- (Zpos m' * 2 ^ (e' + 1074)) - Zneg m * 2 ^ (ez + 1074))
          with (- (Zpos m' * 2 ^ (e' + 1074) - Zpos m * 2 ^ (ez + 1074)))
          by (rewrite <- (Pos2Z.opp_pos m); ring).
        rewrite Z.abs_opp. exact Hb.
    + right. exists true. split; [reflexivity|].
      rewrite <- (Pos2Z.opp_pos m), Z.mul_opp_l, Z.abs_opp.
      rewrite Z.abs_eq; [exact Ho|]. apply Z.mul_nonneg_nonneg; lia.
Qed.

(** The sum of two finite binary64 numbers is the exact sum rounded: it is
    finite and within [2^-53] of itself from the exact sum, or it is an
    infinity and the exact sum has reached the overflow threshold. *)
Lemma add_spec (a b : double) :
  is_finite a = true -> is_finite b = true ->
  exp_in_range a = true -> exp_in_range b = true ->
  (is_finite (a [+] b) = true /\ exp_in_range (a [+] b) = true
   /\ 2 ^ 53 * Z.abs (scaled (a [+] b) - (scaled a + scaled b))
      <= Z.abs (scaled (a [+] b)))
  \/ (exists s, a [+] b = S754_infinity s
                /\ overflow_threshold <= Z.abs (scaled a + scaled b)).
Proof.
  intros Fa Fb Ra Rb.
  destruct a as [sa|sa| |sa ma ea]; try discriminate;
    destruct b as [sb|sb| |sb mb eb]; try discriminate.
  - left. destruct sa, sb; cbn; repeat split; lia.
  - left. change (S754_zero sa [+] S754_finite sb mb eb)
      with (S754_finite sb mb eb).
    split; [reflexivity|]. split; [exact Rb|].
    cbn [scaled]. rewrite Z.add_0_l, Z.sub_diag. cbn [Z.abs]. lia.
  - left. change (S754_finite sa ma ea [+] S754_zero sb)
      with (S754_finite sa ma ea).
    split; [reflexivity|]. split; [exact Ra|].
    cbn [scaled]. rewrite Z.add_0_r, Z.sub_diag. cbn [Z.abs]. lia.
  - cbn [exp_in_range] in Ra, Rb.
    apply andb_true_iff in Ra as [Ra1 Ra2]. apply andb_true_iff in Rb as [Rb1 Rb2].
    apply Z.leb_le in Ra1, Ra2, Rb1, Rb2.
    unfold add. cbn [SFadd]. set (ez := Z.min ea eb).
    assert (He : -1074 <= ez <= 971) by (unfold ez; lia).
    cbn [scaled].
    rewrite <- (shl_align_value ma ea ez), <- (shl_align_value mb eb ez)
      by (unfold ez; lia).
    rewrite !cond_Zopp_mul, <- Z.mul_add_distr_r.
    apply binary_normalize_spec. exact He.
Qed.

Lemma shape_not_nan (s : bool) (R : double) :
  (R = S754_zero s \/ R = S754_infinity s
   \/ exists m' e', R = S754_finite s m' e' /\ -1074 <= e' <= 971) ->
  is_nan R = false /\ exp_in_range R = true.
Proof.
  intros [->|[->|(m' & e' & -> & He)]]; cbn; split; try reflexivity.
  apply andb_true_iff; split; apply Z.leb_le; lia.
Qed.

Lemma binary_round_shape (sx : bool) (m : positive) (e : Z) :
  is_nan (binary_round prec emax sx m e) = false
  /\ exp_in_range (binary_round prec emax sx m e) = true.
Proof.
  unfold binary_round.
  destruct (shl_align m e _) as [mz ez].
  apply (shape_not_nan sx). apply binary_round_aux_shape. lia.
Qed.

(** Sums and products of finite numbers are never NaN, and when they are
    finite their exponent is one binary64 has. *)
Lemma add_finite_shape (a b : double) :
  is_finite a = true -> is_finite b = true ->
  is_nan (a [+] b) = false
  /\ (exp_in_range a = true -> exp_in_range b = true ->
      exp_in_range (a [+] b) = true).
Proof.
  intros Fa Fb.
  destruct a as [sa|sa| |sa ma ea]; try discriminate;
    destruct b as [sb|sb| |sb mb eb]; try discriminate.
  - destruct sa, sb; cbn; auto.
  - cbn; auto.
  - cbn; auto.
  - unfold add. cbn [SFadd].
    destruct (cond_Zopp sa _ + cond_Zopp sb _) as [|m|m];
      cbn [binary_normalize].
    + cbn; auto.
    + destruct (binary_round_shape false m (Z.min ea eb)); auto.
    + destruct (binary_round_shape true m (Z.min ea eb)); auto.
Qed.

Lemma mul_finite_shape (a b : double) :
  is_finite a = true -> is_finite b = true ->
  is_nan (a [*] b) = false /\ exp_in_range (a [*] b) = true.
Proof.
  intros Fa Fb.
  destruct a as [sa|sa| |sa ma ea]; try discriminate;
    destruct b as [sb|sb| |sb mb eb]; try discriminate;
    try (cbn; split; reflexivity).
  unfold mul. cbn [SFmul].
  apply (shape_not_nan (xorb sa sb)). apply binary_round_aux_shape. lia.
Qed.

Lemma add_nonfinite_l (a b : double) :
  is_finite a = false -> is_finite (a [+] b) = false.
Proof.
  destruct a as [sa|[|]| |sa ma ea]; try discriminate; intros _;
    destruct b as [sb|[|]| |sb mb eb]; reflexivity.
Qed.

Lemma binary_round_aux_opp (s : bool) (m e : Z) (l : location) :
  binary_round_aux prec emax (negb s) m e l
  = SFopp (binary_round_aux prec emax s m e l).
Proof.
  unfold binary_round_aux.
  destruct (shr_fexp prec emax m e l) as [mrs' e'].
  destruct (shr_fexp prec emax _ e' loc_Exact) as [mrs'' e''].
  destruct (shr_m mrs''); try reflexivity.
  destruct (e'' <=? emax - prec); reflexivity.
Qed.

Lemma mul_neg_l (d c : double) : neg d [*] c = neg (d [*] c).
Proof.
  destruct d as [sd|sd| |sd md ed]; destruct c as [sc|sc| |sc mc ec];
    try reflexivity; unfold mul, neg; cbn [SFmul SFopp];
    rewrite <- ?negb_xorb_l; try reflexivity.
  apply binary_round_aux_opp.
Qed.

Lemma scaled_neg (d : double) : scaled (neg d) = - scaled d.
Proof.
  destruct d as [s|s| |s m e]; try reflexivity.
  cbn. destruct s; cbn; lia.
Qed.

Lemma neg_finite (d : double) : is_finite (neg d) = is_finite d.
Proof. destruct d; reflexivity. Qed.

Lemma neg_exp_in_range (d : double) : exp_in_range (neg d) = exp_in_range d.
Proof. destruct d; reflexivity. Qed.

(** [a + 0.0] is [a], except that [-0 + 0.0] is [+0]. *)
Lemma add_pos_zero_r (a : double) : a <> neg_zero -> a [+] pos_zero = a.
Proof.
  destruct a as [[|]|sa| |sa ma ea]; intros H; try reflexivity.
  now elim H.
Qed.

Lemma add_neg_self (p : double) :
  is_finite p = true -> is_zero (p [+] neg p) = true.
Proof.
  destruct p as [[|]|s| |s m e]; try discriminate; intros _; try reflexivity.
  unfold add, neg. cbn [SFopp SFadd]. rewrite Z.min_id.
  unfold shl_align. rewrite Z.sub_diag. cbn [fst].
  destruct s; cbn [negb cond_Zopp]; rewrite ?Z.add_opp_diag_l, ?Z.add_opp_diag_r;
    reflexivity.
Qed.

Lemma finite_not_nan (d : double) : is_finite d = true -> is_nan d = false.
Proof. destruct d; try discriminate; reflexivity. Qed.

(** X1: on a pose of finite numbers, a call of [move] or [rotate] with a
    finite argument never stores a NaN (for [move], when [cos] and [sin] of
    the heading are finite): whatever overflows becomes an infinity. *)
Theorem finite_calls_never_store_nan (L : Libm) (x0 y0 a arg : double)
    (w : World)
    (Hx : is_finite x0 = true) (Hy : is_finite y0 = true)
    (Ha : is_finite a = true) (Harg : is_finite arg = true)
    (Hcos : is_finite (cos a) = true) (Hsin : is_finite (sin a) = true) :
  pose_no_nan (ProjM1.pose (fst (ProjM1.move arg (ProjM1.Build_Robot x0 y0 a) w))) = true
  /\ pose_no_nan (ProjM1.pose (fst (ProjM1.rotate arg (ProjM1.Build_Robot x0 y0 a) w))) = true
  /\ pose_no_nan (Proj4.pose (fst (Proj4.move arg (Proj4.Build_Robot x0 y0 a) w))) = true
  /\ pose_no_nan (Proj4.pose (fst (Proj4.rotate arg (Proj4.Build_Robot x0 y0 a) w))) = true.
Proof.
  rewrite move_M1, rotate_M1, move_4, rotate_4.
  cbn [fst ProjM1.pose Proj4.pose ProjM1.x ProjM1.y ProjM1.angle
         Proj4.x Proj4.y Proj4.angle pose_no_nan].
  destruct (mul_finite_shape arg (cos a) Harg Hcos) as [Nc _].
  destruct (mul_finite_shape arg (sin a) Harg Hsin) as [Ns _].
  assert (Fc : is_finite (arg [*] cos a) = true
               \/ is_finite (arg [*] cos a) = false)
    by (destruct (is_finite (arg [*] cos a)); auto).
  assert (Nx : is_nan (x0 [+] arg [*] cos a) = false).
  { destruct (arg [*] cos a) as [s|s| |s m e] eqn:E; try discriminate.
    - now apply add_finite_shape.
    - destruct x0; try discriminate; reflexivity.
    - now apply add_finite_shape. }
  assert (Ny : is_nan (y0 [+] arg [*] sin a) = false).
  { destruct (arg [*] sin a) as [s|s| |s m e] eqn:E; try discriminate.
    - now apply add_finite_shape.
    - destruct y0; try discriminate; reflexivity.
    - now apply add_finite_shape. }
  destruct (add_finite_shape a arg Ha Harg) as [Na _].
  rewrite Nx, Ny, Na, !(finite_not_nan _ Hx), !(finite_not_nan _ Hy),
    !(finite_not_nan _ Ha).
  repeat split; reflexivity.
Qed.

Lemma finite_calls_never_store_nan_witness :
  pose_no_nan (ProjM1.pose (fst (@ProjM1.move poly_libm max_double
                 (ProjM1.Build_Robot max_double lit_0 lit_0) empty_world))) = true
  /\ pose_no_nan (ProjM1.pose (fst (ProjM1.rotate max_double
                 (ProjM1.Build_Robot lit_0 lit_0 lit_1_0) empty_world))) = true.
Proof.
  split.
  - exact (proj1 (finite_calls_never_store_nan poly_libm max_double lit_0 lit_0
                    max_double empty_world eq_refl eq_refl eq_refl eq_refl
                    eq_refl eq_refl)).
  - exact (proj1 (proj2 (finite_calls_never_store_nan poly_libm lit_0 lit_0
                    lit_1_0 max_double empty_world eq_refl eq_refl eq_refl
                    eq_refl eq_refl eq_refl))).
Defined.

(** X2: for a finite binary64 heading and angle change, the heading
    [rotate] stores is the exact sum correctly rounded: either it is finite
    and differs from the exact sum by at most [2^-53] of its own magnitude,
    or it is an infinity and the exact sum has reached
    [2^1024 - 2^970] in magnitude. *)
Theorem rotate_rounds_the_exact_sum (x0 y0 a c : double) (w : World)
    (Va : valid a = true) (Vc : valid c = true)
    (Ha : is_finite a = true) (Hc : is_finite c = true) :
  let a' := ProjM1.angle (fst (ProjM1.rotate c (ProjM1.Build_Robot x0 y0 a) w)) in
  Proj4.angle (fst (Proj4.rotate c (Proj4.Build_Robot x0 y0 a) w)) = a'
  /\ ((is_finite a' = true
       /\ 2 ^ 53 * Z.abs (scaled a' - (scaled a + scaled c)) <= Z.abs (scaled a'))
      \/ ((exists s, a' = S754_infinity s)
          /\ overflow_threshold <= Z.abs (scaled a + scaled c))).
Proof.
  rewrite rotate_M1, rotate_4. cbn [fst ProjM1.angle Proj4.angle].
  split; [reflexivity|].
  destruct (add_spec a c Ha Hc (valid_exp_in_range _ Va) (valid_exp_in_range _ Vc))
    as [(F & _ & B)|(s & E & O)].
  - left. split; assumption.
  - right. split; [now exists s | exact O].
Qed.

Lemma rotate_rounds_the_exact_sum_witness :
  let a' := ProjM1.angle (fst (ProjM1.rotate lit_0_5
              (ProjM1.Build_Robot lit_0 lit_0 lit_1_0) empty_world)) in
  (is_finite a' = true
   /\ 2 ^ 53 * Z.abs (scaled a' - (scaled lit_1_0 + scaled lit_0_5))
      <= Z.abs (scaled a'))
  \/ ((exists s, a' = S754_infinity s)
      /\ overflow_threshold <= Z.abs (scaled lit_1_0 + scaled lit_0_5)).
Proof.
  exact (proj2 (rotate_rounds_the_exact_sum lit_0 lit_0 lit_1_0 lit_0_5
                  empty_world eq_refl eq_refl eq_refl eq_refl)).
Defined.

Lemma add_rounds (x p : double) :
  valid x = true -> is_finite x = true ->
  is_finite p = true -> exp_in_range p = true ->
  (is_finite (x [+] p) = true /\ exp_in_range (x [+] p) = true
   /\ 2 ^ 53 * Z.abs (scaled (x [+] p) - (scaled x + scaled p))
      <= Z.abs (scaled (x [+] p)))
  \/ ((exists s, x [+] p = S754_infinity s)
      /\ overflow_threshold <= Z.abs (scaled x + scaled p)).
Proof.
  intros Vx Fx Fp Rp.
  destruct (add_spec x p Fx Fp (valid_exp_in_range _ Vx) Rp)
    as [H|(s & E & O)]; [now left | right; split; [now exists s | exact O]].
Qed.

(** X3: for a finite binary64 position, a finite distance and finite [cos]
    and [sin] of the heading, each coordinate [move] stores is the exact sum
    of the old coordinate and the displacement [distance * cos(angle)]
    (resp. [sin]) as rounded by the product: finite and within [2^-53] of
    its own magnitude from that sum, or an infinity when the displacement
    is infinite or the sum has reached [2^1024 - 2^970]. *)
Theorem move_rounds_the_exact_sum (L : Libm) (x0 y0 a d : double) (w : World)
    (Vx : valid x0 = true) (Vy : valid y0 = true)
    (Hx : is_finite x0 = true) (Hy : is_finite y0 = true)
    (Hd : is_finite d = true)
    (Hcos : is_finite (cos a) = true) (Hsin : is_finite (sin a) = true) :
  let r' := fst (ProjM1.move d (ProjM1.Build_Robot x0 y0 a) w) in
  let px := d [*] cos a in
  let py := d [*] sin a in
  Proj4.pose (fst (Proj4.move d (Proj4.Build_Robot x0 y0 a) w)) = ProjM1.pose r'
  /\ ((is_finite (ProjM1.x r') = true
       /\ 2 ^ 53 * Z.abs (scaled (ProjM1.x r') - (scaled x0 + scaled px))
          <= Z.abs (scaled (ProjM1.x r')))
      \/ ((exists s, ProjM1.x r' = S754_infinity s)
          /\ (is_finite px = false
              \/ overflow_threshold <= Z.abs (scaled x0 + scaled px))))
  /\ ((is_finite (ProjM1.y r') = true
       /\ 2 ^ 53 * Z.abs (scaled (ProjM1.y r') - (scaled y0 + scaled py))
          <= Z.abs (scaled (ProjM1.y r')))
      \/ ((exists s, ProjM1.y r' = S754_infinity s)
          /\ (is_finite py = false
              \/ overflow_threshold <= Z.abs (scaled y0 + scaled py)))).
Proof.
  rewrite move_M1, move_4.
  cbn [fst ProjM1.pose Proj4.pose ProjM1.x ProjM1.y ProjM1.angle
         Proj4.x Proj4.y Proj4.angle].
  split; [reflexivity|].
  assert (Hgen : forall x c, valid x = true -> is_finite x = true ->
            is_finite c = true ->
            (is_finite (x [+] d [*] c) = true
             /\ 2 ^ 53 * Z.abs (scaled (x [+] d [*] c) - (scaled x + scaled (d [*] c)))
                <= Z.abs (scaled (x [+] d [*] c)))
            \/ ((exists s, x [+] d [*] c = S754_infinity s)
                /\ (is_finite (d [*] c) = false
                    \/ overflow_threshold <= Z.abs (scaled x + scaled (d [*] c))))).
  { intros x c Vx' Fx Fc.
    destruct (mul_finite_shape d c Hd Fc) as [Np Rp].
    destruct (is_finite (d [*] c)) eqn:Fp.
    - destruct (add_rounds x (d [*] c) Vx' Fx Fp Rp) as [(F & _ & B)|[E O]].
      + left. now split.
      + right. split; [exact E | now right].
    - right. split; [|now left].
      destruct (d [*] c) as [s|s| |s m e]; try discriminate.
      exists s. destruct x; try discriminate; reflexivity. }
  split; apply Hgen; assumption.
Qed.

Lemma move_rounds_the_exact_sum_witness :
  let r' := fst (@ProjM1.move poly_libm lit_0_5
                   (ProjM1.Build_Robot lit_1_0 lit_0 lit_0_5) empty_world) in
  is_finite (ProjM1.x r') = true
  /\ 2 ^ 53 * Z.abs (scaled (ProjM1.x r')
                     - (scaled lit_1_0 + scaled (lit_0_5 [*] poly_cos lit_0_5)))
     <= Z.abs (scaled (ProjM1.x r')).
Proof.
  destruct (move_rounds_the_exact_sum poly_libm lit_1_0 lit_0 lit_0_5 lit_0_5
              empty_world eq_refl eq_refl eq_refl eq_refl eq_refl eq_refl
              eq_refl) as (_ & [H|[(s & E) _]] & _).
  - exact H.
  - vm_compute in E. discriminate.
Defined.

Lemma there_and_back (x p q : double) :
  valid x = true -> is_finite x = true ->
  is_finite p = true -> exp_in_range p = true ->
  is_finite q = true -> exp_in_range q = true ->
  scaled q = - scaled p ->
  is_finite (x [+] p) = true -> is_finite (x [+] p [+] q) = true ->
  2 ^ 53 * Z.abs (scaled (x [+] p [+] q) - scaled x)
  <= Z.abs (scaled (x [+] p)) + Z.abs (scaled (x [+] p [+] q)).
Proof.
  intros Vx Fx Fp Rp Fq Rq Hq F1 F2.
  destruct (add_spec x p Fx Fp (valid_exp_in_range _ Vx) Rp)
    as [(_ & R1 & B1)|(s & E & _)]; [|rewrite E in F1; discriminate].
  destruct (add_spec (x [+] p) q F1 Fq R1 Rq)
    as [(_ & _ & B2)|(s & E & _)]; [|rewrite E in F2; discriminate].
  rewrite Hq in B2. change (2 ^ 53) with 9007199254740992 in *. lia.
Qed.

Lemma add_finite_r (a b : double) :
  is_finite (a [+] b) = true -> is_finite b = true.
Proof.
  intros H. destruct (is_finite b) eqn:Fb; [reflexivity|].
  now rewrite (add_nonfinite_r a b Fb) in H.
Qed.

Lemma mul_back (d c1 c2 : double) :
  is_finite d = true -> same_value c2 c1 ->
  is_finite (d [*] c1) = true ->
  is_finite (neg d [*] c2) = true
  /\ scaled (neg d [*] c2) = - scaled (d [*] c1).
Proof.
  intros Fd [->|[Z2 Z1]] Fp.
  - rewrite mul_neg_l, neg_finite, scaled_neg. now split.
  - destruct c1 as [s1| | |]; try discriminate.
    destruct c2 as [s2| | |]; try discriminate.
    destruct d as [sd|sd| |sd md ed]; try discriminate; cbn; split; reflexivity.
Qed.

Lemma mul_exp_in_range (d c : double) :
  is_finite (d [*] c) = true -> exp_in_range (d [*] c) = true.
Proof.
  destruct d as [sd|sd| |sd md ed]; destruct c as [sc|sc| |sc mc ec];
    try discriminate; try reflexivity.
  intros _. now apply mul_finite_shape.
Qed.

(** Runs the calls of a goal and projects the fields of the result. *)
Ltac run_calls :=
  cbn [ProjM1.run ProjM1.apply Proj4.run Proj4.apply]; unfold bind, ret;
  repeat (progress (rewrite ?move_M1, ?rotate_M1, ?move_4, ?rotate_4;
                    cbv beta iota));
  cbn [fst snd ProjM1.pose Proj4.pose ProjM1.x ProjM1.y ProjM1.angle
         Proj4.x Proj4.y Proj4.angle].

(** X4: [move(d)], [rotate(0)], [move(-d)] on a finite binary64 position:
    when the coordinate after the first move and the final one are finite,
    the final coordinate differs from the original by at most [2^-53] times
    the sum of the magnitudes of these two.  The heading [-0] becomes [+0]
    in between; the statement asks [cos] and [sin] to have the same value
    before and after [rotate(0)], which holds by [add_pos_zero_r] for every
    other heading. *)
Theorem out_and_back_error (L : Libm) (x0 y0 a d : double) (w : World)
    (Vx : valid x0 = true) (Vy : valid y0 = true)
    (Hx : is_finite x0 = true) (Hy : is_finite y0 = true)
    (Hd : is_finite d = true)
    (Hcos : same_value (cos (a [+] lit_0)) (cos a))
    (Hsin : same_value (sin (a [+] lit_0)) (sin a)) :
  let r0 := ProjM1.Build_Robot x0 y0 a in
  let r1 := fst (ProjM1.move d r0 w) in
  let r3 := fst (ProjM1.run [OpMove d; OpRotate lit_0; OpMove (neg d)] r0 w) in
  Proj4.pose (fst (Proj4.run [OpMove d; OpRotate lit_0; OpMove (neg d)]
                     (Proj4.Build_Robot x0 y0 a) w)) = ProjM1.pose r3
  /\ (is_finite (ProjM1.x r1) = true -> is_finite (ProjM1.x r3) = true ->
      2 ^ 53 * Z.abs (scaled (ProjM1.x r3) - scaled x0)
      <= Z.abs (scaled (ProjM1.x r1)) + Z.abs (scaled (ProjM1.x r3)))
  /\ (is_finite (ProjM1.y r1) = true -> is_finite (ProjM1.y r3) = true ->
      2 ^ 53 * Z.abs (scaled (ProjM1.y r3) - scaled y0)
      <= Z.abs (scaled (ProjM1.y r1)) + Z.abs (scaled (ProjM1.y r3))).
Proof.
  run_calls.
  split; [reflexivity|].
  assert (Hgen : forall x c1 c2, valid x = true -> is_finite x = true ->
            same_value c2 c1 ->
            is_finite (x [+] d [*] c1) = true ->
            is_finite (x [+] d [*] c1 [+] neg d [*] c2) = true ->
            2 ^ 53 * Z.abs (scaled (x [+] d [*] c1 [+] neg d [*] c2) - scaled x)
            <= Z.abs (scaled (x [+] d [*] c1))
               + Z.abs (scaled (x [+] d [*] c1 [+] neg d [*] c2))).
  { intros x c1 c2 Vx' Fx Hc F1 F2.
    pose proof (add_finite_r _ _ F1) as Fp.
    destruct (mul_back d c1 c2 Hd Hc Fp) as [Fq Sq].
    apply there_and_back; auto using mul_exp_in_range. }
  split; apply Hgen; assumption.
Qed.

Lemma out_and_back_error_witness :
  let r0 := ProjM1.Build_Robot lit_1_0 lit_0_5 lit_0_5 in
  let r1 := fst (@ProjM1.move poly_libm lit_0_5 r0 empty_world) in
  let r3 := fst (@ProjM1.run poly_libm
                   [OpMove lit_0_5; OpRotate lit_0; OpMove (neg lit_0_5)]
                   r0 empty_world) in
  2 ^ 53 * Z.abs (scaled (ProjM1.x r3) - scaled lit_1_0)
  <= Z.abs (scaled (ProjM1.x r1)) + Z.abs (scaled (ProjM1.x r3)).
Proof.
  refine (proj1 (proj2 (out_and_back_error poly_libm lit_1_0 lit_0_5 lit_0_5
                          lit_0_5 empty_world eq_refl eq_refl eq_refl eq_refl
                          eq_refl (or_introl eq_refl) (or_introl eq_refl)))
                _ _); vm_compute; reflexivity.
Defined.

(** X5: [rotate(c)] then [rotate(-c)] leaves [x] and [y] as they were and,
    when both headings are finite, a heading that differs from the original
    by at most [2^-53] times the sum of the magnitudes of the intermediate
    and the final heading. *)
Theorem rotate_there_and_back_error (x0 y0 a c : double) (w : World)
    (L : Libm)
    (Va : valid a = true) (Vc : valid c = true)
    (Ha : is_finite a = true) (Hc : is_finite c = true) :
  let r0 := ProjM1.Build_Robot x0 y0 a in
  let r1 := fst (ProjM1.rotate c r0 w) in
  let r2 := fst (ProjM1.run [OpRotate c; OpRotate (neg c)] r0 w) in
  Proj4.pose (fst (Proj4.run [OpRotate c; OpRotate (neg c)]
                     (Proj4.Build_Robot x0 y0 a) w)) = ProjM1.pose r2
  /\ ProjM1.x r2 = x0 /\ ProjM1.y r2 = y0
  /\ (is_finite (ProjM1.angle r1) = true -> is_finite (ProjM1.angle r2) = true ->
      2 ^ 53 * Z.abs (scaled (ProjM1.angle r2) - scaled a)
      <= Z.abs (scaled (ProjM1.angle r1)) + Z.abs (scaled (ProjM1.angle r2))).
Proof.
  run_calls.
  repeat split.
  intros F1 F2. apply there_and_back; auto.
  - now apply valid_exp_in_range.
  - now rewrite neg_finite.
  - rewrite neg_exp_in_range. now apply valid_exp_in_range.
  - apply scaled_neg.
Qed.

Lemma rotate_there_and_back_error_witness :
  let r0 := ProjM1.Build_Robot lit_0 lit_0 lit_1_0 in
  let r1 := fst (ProjM1.rotate max_double r0 empty_world) in
  let r2 := fst (@ProjM1.run poly_libm
                   [OpRotate max_double; OpRotate (neg max_double)]
                   r0 empty_world) in
  2 ^ 53 * Z.abs (scaled (ProjM1.angle r2) - scaled lit_1_0)
  <= Z.abs (scaled (ProjM1.angle r1)) + Z.abs (scaled (ProjM1.angle r2)).
Proof.
  refine (proj2 (proj2 (proj2 (rotate_there_and_back_error lit_0 lit_0 lit_1_0
                   max_double empty_world poly_libm eq_refl eq_refl eq_refl
                   eq_refl))) _ _); vm_compute; reflexivity.
Defined.

Lemma run_M1_cons (L : Libm) (o : Op) (ops : list Op) (r : ProjM1.Robot)
    (w : World) :
  ProjM1.run (o :: ops) r w
  = ProjM1.run ops (fst (ProjM1.apply o r w)) (snd (ProjM1.apply o r w)).
Proof.
  cbn [ProjM1.run]. unfold bind. now destruct (ProjM1.apply o r w).
Qed.

Lemma run_4_cons (L : Libm) (o : Op) (ops : list Op) (r : Proj4.Robot)
    (w : World) :
  Proj4.run (o :: ops) r w
  = Proj4.run ops (fst (Proj4.apply o r w)) (snd (Proj4.apply o r w)).
Proof.
  cbn [Proj4.run]. unfold bind. now destruct (Proj4.apply o r w).
Qed.

(** X6: a field that is an infinity or a NaN stays non-finite through every
    later sequence of [move] and [rotate] calls: no call brings a field
    back to a finite value. *)
Theorem non_finite_fields_stay_non_finite (L : Libm) (ops : list Op)
    (x0 y0 a : double) (w : World) :
  let r1 := fst (ProjM1.run ops (ProjM1.Build_Robot x0 y0 a) w) in
  let r4 := fst (Proj4.run ops (Proj4.Build_Robot x0 y0 a) w) in
  (is_finite x0 = false ->
   is_finite (ProjM1.x r1) = false /\ is_finite (Proj4.x r4) = false)
  /\ (is_finite y0 = false ->
      is_finite (ProjM1.y r1) = false /\ is_finite (Proj4.y r4) = false)
  /\ (is_finite a = false ->
      is_finite (ProjM1.angle r1) = false /\ is_finite (Proj4.angle r4) = false).
Proof.
  revert x0 y0 a w. induction ops as [|o ops IH]; intros x0 y0 a w.
  - cbn. auto.
  - cbv zeta. rewrite run_M1_cons, run_4_cons.
    destruct o as [d|c]; cbn [ProjM1.apply Proj4.apply].
    + rewrite move_M1, move_4. cbn [fst snd ProjM1.x ProjM1.y ProjM1.angle
                                       Proj4.x Proj4.y Proj4.angle].
      specialize (IH (x0 [+] d [*] cos a) (y0 [+] d [*] sin a) a
                     (after_call w (move_line (x0 [+] d [*] cos a)
                                              (y0 [+] d [*] sin a)) (CallMove d))).
      cbv zeta in IH. destruct IH as (IHx & IHy & IHa).
      split; [|split]; intros H.
      * apply IHx. now apply add_nonfinite_l.
      * apply IHy. now apply add_nonfinite_l.
      * now apply IHa.
    + rewrite rotate_M1, rotate_4. cbn [fst snd ProjM1.x ProjM1.y ProjM1.angle
                                           Proj4.x Proj4.y Proj4.angle].
      specialize (IH x0 y0 (a [+] c)
                     (after_call w (rotate_line (a [+] c)) (CallRotate c))).
      cbv zeta in IH. destruct IH as (IHx & IHy & IHa).
      split; [|split]; intros H.
      * now apply IHx.
      * now apply IHy.
      * apply IHa. now apply add_nonfinite_l.
Qed.

Lemma non_finite_fields_stay_non_finite_witness :
  is_finite (ProjM1.angle (fst (@ProjM1.run poly_libm
      [OpRotate max_double; OpMove lit_1_0; OpRotate (neg max_double)]
      (ProjM1.Build_Robot lit_0 lit_0 pos_inf) empty_world))) = false.
Proof.
  exact (proj1 (proj2 (proj2 (non_finite_fields_stay_non_finite poly_libm
      [OpRotate max_double; OpMove lit_1_0; OpRotate (neg max_double)]
      lit_0 lit_0 pos_inf empty_world)) eq_refl)).
Defined.

(** X7: after any sequence of calls the heading is the starting heading
    with the arguments of the [rotate] calls added from left to right in
    binary64; the [move] calls in between do not touch it. *)
Theorem heading_is_the_sum_of_the_rotations (L : Libm) (ops : list Op)
    (x0 y0 a : double) (w : World) :
  ProjM1.angle (fst (ProjM1.run ops (ProjM1.Build_Robot x0 y0 a) w))
    = fold_left Double.add (rotations ops) a
  /\ Proj4.angle (fst (Proj4.run ops (Proj4.Build_Robot x0 y0 a) w))
    = fold_left Double.add (rotations ops) a.
Proof.
  revert x0 y0 a w. induction ops as [|o ops IH]; intros x0 y0 a w.
  - split; reflexivity.
  - rewrite run_M1_cons, run_4_cons.
    destruct o as [d|c]; cbn [ProjM1.apply Proj4.apply rotations fold_left].
    + rewrite move_M1, move_4. apply IH.
    + rewrite rotate_M1, rotate_4. apply IH.
Qed.

(** X8: a sequence made of [rotate] calls only leaves [x] and [y] exactly
    as they were. *)
Theorem rotations_leave_the_position (L : Libm) (ops : list Op)
    (x0 y0 a : double) (w : World)
    (Hops : forallb is_rotate ops = true) :
  let r1 := fst (ProjM1.run ops (ProjM1.Build_Robot x0 y0 a) w) in
  let r4 := fst (Proj4.run ops (Proj4.Build_Robot x0 y0 a) w) in
  (ProjM1.x r1 = x0 /\ ProjM1.y r1 = y0)
  /\ (Proj4.x r4 = x0 /\ Proj4.y r4 = y0).
Proof.
  revert x0 y0 a w. induction ops as [|o ops IH]; intros x0 y0 a w.
  - repeat split; reflexivity.
  - cbv zeta. rewrite run_M1_cons, run_4_cons.
    cbn [forallb] in Hops. apply andb_true_iff in Hops as [Ho Hops].
    destruct o as [d|c]; [discriminate|].
    cbn [ProjM1.apply Proj4.apply]. rewrite rotate_M1, rotate_4.
    apply (IH Hops).
Qed.

Lemma rotations_leave_the_position_witness :
  ProjM1.x (fst (@ProjM1.run poly_libm [OpRotate lit_0_5; OpRotate max_double]
                   (ProjM1.Build_Robot lit_1_0 lit_0_5 lit_0) empty_world))
  = lit_1_0.
Proof.
  exact (proj1 (proj1 (rotations_leave_the_position poly_libm
      [OpRotate lit_0_5; OpRotate max_double] lit_1_0 lit_0_5 lit_0
      empty_world eq_refl))).
Defined.

(** X10: [rotate] by a zero of either sign leaves [x] and [y] as they were
    and the heading with the same value; the representation changes only
    for the heading [-0], which [rotate(+0)] turns into [+0]. *)
Theorem rotate_by_zero_keeps_the_pose (x0 y0 a c : double) (w : World)
    (Hc : is_zero c = true) :
  let r1 := fst (ProjM1.rotate c (ProjM1.Build_Robot x0 y0 a) w) in
  let r4 := fst (Proj4.rotate c (Proj4.Build_Robot x0 y0 a) w) in
  (ProjM1.x r1 = x0 /\ ProjM1.y r1 = y0 /\ same_value (ProjM1.angle r1) a
   /\ (a <> neg_zero -> ProjM1.angle r1 = a))
  /\ Proj4.pose r4 = ProjM1.pose r1.
Proof.
  run_calls. repeat split.
  - now apply add_zero_r.
  - intros Ha. destruct c as [[|]| | |]; try discriminate.
    + destruct a as [[|]|sa| |sa ma ea]; reflexivity.
    + now apply add_pos_zero_r.
Qed.

Lemma rotate_by_zero_keeps_the_pose_witness :
  ProjM1.angle (fst (ProjM1.rotate lit_0
                       (ProjM1.Build_Robot lit_1_0 lit_0 lit_0_5) empty_world))
  = lit_0_5.
Proof.
  refine (proj2 (proj2 (proj2 (proj1 (rotate_by_zero_keeps_the_pose lit_1_0
            lit_0 lit_0_5 lit_0 empty_world eq_refl)))) _).
  discriminate.
Defined.

Lemma zero_there_and_back (z p : double) :
  is_zero z = true -> is_finite p = true ->
  is_zero (z [+] p [+] neg p) = true.
Proof.
  intros Hz Fp. destruct z as [sz| | |]; try discriminate.
  destruct p as [sp|sp| |sp mp ep]; try discriminate.
  - destruct sz, sp; reflexivity.
  - change (S754_zero sz [+] S754_finite sp mp ep) with (S754_finite sp mp ep).
    now apply add_neg_self.
Qed.

(** X11: from a position whose coordinates are zeros, [move(d)] followed
    by [move(-d)] with finite displacements ends on zeros again, with the
    heading untouched: the return to the origin is exact. *)
Theorem back_to_the_origin_exactly (L : Libm) (x0 y0 a d : double) (w : World)
    (Hx : is_zero x0 = true) (Hy : is_zero y0 = true)
    (Fx : is_finite (d [*] cos a) = true)
    (Fy : is_finite (d [*] sin a) = true) :
  let r2 := fst (ProjM1.run [OpMove d; OpMove (neg d)]
                   (ProjM1.Build_Robot x0 y0 a) w) in
  let r4 := fst (Proj4.run [OpMove d; OpMove (neg d)]
                   (Proj4.Build_Robot x0 y0 a) w) in
  is_zero (ProjM1.x r2) = true /\ is_zero (ProjM1.y r2) = true
  /\ ProjM1.angle r2 = a /\ Proj4.pose r4 = ProjM1.pose r2.
Proof.
  run_calls. rewrite !mul_neg_l.
  repeat split; now apply zero_there_and_back.
Qed.

Lemma back_to_the_origin_exactly_witness :
  is_zero (ProjM1.x (fst (@ProjM1.run poly_libm
      [OpMove max_double; OpMove (neg max_double)]
      (ProjM1.Build_Robot lit_0 lit_0 lit_0_5) empty_world))) = true.
Proof.
  exact (proj1 (back_to_the_origin_exactly poly_libm lit_0 lit_0 lit_0_5
                  max_double empty_world eq_refl eq_refl eq_refl eq_refl)).
Defined.

Lemma count_newlines_append (a b : string) :
  count_newlines (a ++ b) = (count_newlines a + count_newlines b)%nat.
Proof.
  induction a as [|c a IH]; cbn [append count_newlines]; [reflexivity|].
  rewrite IH. lia.
Qed.

Lemma string_of_uint_one_line (u : Decimal.uint) :
  count_newlines (NilEmpty.string_of_uint u) = O.
Proof.
  induction u; cbn [NilEmpty.string_of_uint count_newlines]; try rewrite IHu;
    reflexivity.
Qed.

Lemma digits_of_one_line (n : Z) : count_newlines (Ostream.digits_of n) = O.
Proof.
  unfold Ostream.digits_of, NilZero.string_of_uint.
  destruct (N.to_uint (Z.to_N n)) eqn:E; try reflexivity;
    rewrite <- E; apply string_of_uint_one_line.
Qed.

Lemma zeros_one_line (n : nat) : count_newlines (Ostream.zeros n) = O.
Proof.
  induction n as [|k IH]; cbn [Ostream.zeros count_newlines];
    [reflexivity | exact IH].
Qed.

Lemma pad_left_one_line (width : nat) (s : string) :
  count_newlines s = O -> count_newlines (Ostream.pad_left width s) = O.
Proof.
  intros Hs. unfold Ostream.pad_left.
  now rewrite count_newlines_append, zeros_one_line, Hs.
Qed.

Lemma strip_zeros_one_line (s : string) :
  count_newlines s = O -> count_newlines (Ostream.strip_zeros s) = O.
Proof.
  induction s as [|c r IH]; cbn [Ostream.strip_zeros count_newlines];
    [reflexivity|].
  intros H. apply Nat.eq_add_0 in H as [Hc Hr]. specialize (IH Hr).
  destruct (Ostream.strip_zeros r) as [|c' r'].
  - destruct (Ascii.eqb c "0"); cbn [count_newlines]; [reflexivity|].
    now rewrite Hc.
  - cbn [count_newlines] in *. now rewrite Hc, IH.
Qed.

Lemma with_point_one_line (i f : string) :
  count_newlines i = O -> count_newlines f = O ->
  count_newlines (Ostream.with_point i f) = O.
Proof.
  intros Hi Hf. unfold Ostream.with_point.
  pose proof (strip_zeros_one_line f Hf) as Hs.
  destruct (Ostream.strip_zeros f) as [|c r]; [exact Hi|].
  rewrite !count_newlines_append, Hi, Hs. reflexivity.
Qed.

Lemma fmt_g_one_line (m : positive) (e : Z) :
  count_newlines (Ostream.fmt_g m e) = O.
Proof.
  unfold Ostream.fmt_g.
  destruct (Ostream.six_digits _ _) as [D X].
  destruct ((-4 <=? X)%Z && (X <? 6)%Z).
  - apply with_point_one_line;
      [apply digits_of_one_line | apply pad_left_one_line, digits_of_one_line].
  - rewrite !count_newlines_append.
    rewrite with_point_one_line
      by (try apply pad_left_one_line; apply digits_of_one_line).
    rewrite pad_left_one_line by apply digits_of_one_line.
    destruct (X <? 0)%Z; reflexivity.
Qed.

(** A number is printed on one line. *)
Lemma show_double_one_line (d : double) :
  count_newlines (Ostream.show_double d) = O.
Proof.
  destruct d as [[|]|[|]| |[|] m e]; try reflexivity;
    cbn [Ostream.show_double Ostream.sign_string];
    rewrite ?count_newlines_append, fmt_g_one_line; reflexivity.
Qed.

Lemma move_line_one_line (x' y' : double) :
  count_newlines (move_line x' y') = 1%nat.
Proof.
  unfold move_line. rewrite !count_newlines_append, !show_double_one_line.
  reflexivity.
Qed.

Lemma rotate_line_one_line (a' : double) :
  count_newlines (rotate_line a') = 1%nat.
Proof.
  unfold rotate_line. rewrite !count_newlines_append, show_double_one_line.
  reflexivity.
Qed.

(** X9: a sequence of [n] calls keeps what was printed before and appends
    text with exactly [n] newline characters, the same text in both
    variants: every call prints one line. *)
Theorem each_call_prints_one_line (L : Libm) (ops : list Op)
    (x0 y0 a : double) (w : World) :
  exists out,
    cout (snd (ProjM1.run ops (ProjM1.Build_Robot x0 y0 a) w)) = cout w ++ out
    /\ cout (snd (Proj4.run ops (Proj4.Build_Robot x0 y0 a) w)) = cout w ++ out
    /\ count_newlines out = List.length ops.
Proof.
  revert x0 y0 a w. induction ops as [|o ops IH]; intros x0 y0 a w.
  - exists EmptyString. cbn. now rewrite append_nil_r.
  - rewrite run_M1_cons, run_4_cons.
    destruct o as [d|c]; cbn [ProjM1.apply Proj4.apply].
    + rewrite move_M1, move_4. cbn [fst snd ProjM1.x ProjM1.y ProjM1.angle
                                       Proj4.x Proj4.y Proj4.angle].
      set (line := move_line _ _).
      destruct (IH (x0 [+] d [*] cos a) (y0 [+] d [*] sin a) a
                   (after_call w line (CallMove d))) as (out & H1 & H4 & Hn).
      exists (line ++ out). cbn [after_call cout] in H1, H4.
      rewrite H1, H4, !append_assoc, count_newlines_append, Hn.
      unfold line. rewrite move_line_one_line. repeat split.
    + rewrite rotate_M1, rotate_4. cbn [fst snd ProjM1.x ProjM1.y ProjM1.angle
                                           Proj4.x Proj4.y Proj4.angle].
      set (line := rotate_line _).
      destruct (IH x0 y0 (a [+] c) (after_call w line (CallRotate c)))
        as (out & H1 & H4 & Hn).
      exists (line ++ out). cbn [after_call cout] in H1, H4.
      rewrite H1, H4, !append_assoc, count_newlines_append, Hn.
      unfold line. rewrite rotate_line_one_line. repeat split.
Qed.

(** ** Finite poses and the way back, up to overflow *)

(** [Robot(0, 0, DBL_MAX).rotate(DBL_MAX)]: every argument is finite and the
    heading becomes [+inf]. *)
Lemma finite_pose_counterexample :
  let r0 := fst (ProjM1.Robot_new lit_0 lit_0 max_double empty_world) in
  let r1 := fst (ProjM1.rotate max_double r0 empty_world) in
  is_finite max_double = true
  /\ pose_finite (ProjM1.pose r0) = true
  /\ ProjM1.pose r1 = (lit_0, lit_0, pos_inf)
  /\ pose_finite (ProjM1.pose r1) = false.
Proof.
  cbv zeta. repeat split.
Qed.

(** C3, as the code has it: construction with finite arguments gives three
    finite fields.  On such a pose of binary64 numbers, with a finite
    argument (and finite [cos] and [sin] of the heading for [move]), [move]
    leaves [angle] and [rotate] leaves [x] and [y] as they were, and no
    field becomes NaN.  A field that is updated can become an infinity, by
    overflow only: the heading when the exact sum [angle + angle_change]
    reaches [2^1024 - 2^970] in magnitude, a coordinate when the product
    [distance * cos(angle)] (resp. [sin]) is infinite or its exact sum with
    the coordinate reaches that magnitude. *)
Theorem finite_pose_up_to_overflow (L : Libm) (x0 y0 a arg : double)
    (w : World)
    (Vx : valid x0 = true) (Vy : valid y0 = true)
    (Va : valid a = true) (Varg : valid arg = true)
    (Hx : is_finite x0 = true) (Hy : is_finite y0 = true)
    (Ha : is_finite a = true) (Harg : is_finite arg = true)
    (Hcos : is_finite (cos a) = true) (Hsin : is_finite (sin a) = true) :
  let r0 := fst (ProjM1.Robot_new x0 y0 a w) in
  let rm := fst (ProjM1.move arg r0 w) in
  let rr := fst (ProjM1.rotate arg r0 w) in
  let q0 := fst (Proj4.Robot_new x0 y0 a w) in
  pose_finite (ProjM1.pose r0) = true
  /\ (pose_no_nan (ProjM1.pose rm) = true
      /\ ProjM1.angle rm = a
      /\ (is_finite (ProjM1.x rm) = false ->
          is_finite (arg [*] cos a) = false
          \/ overflow_threshold <= Z.abs (scaled x0 + scaled (arg [*] cos a)))
      /\ (is_finite (ProjM1.y rm) = false ->
          is_finite (arg [*] sin a) = false
          \/ overflow_threshold <= Z.abs (scaled y0 + scaled (arg [*] sin a))))
  /\ (pose_no_nan (ProjM1.pose rr) = true
      /\ ProjM1.x rr = x0 /\ ProjM1.y rr = y0
      /\ (is_finite (ProjM1.angle rr) = false ->
          overflow_threshold <= Z.abs (scaled a + scaled arg)))
  /\ (Proj4.pose q0 = ProjM1.pose r0
      /\ Proj4.pose (fst (Proj4.move arg q0 w)) = ProjM1.pose rm
      /\ Proj4.pose (fst (Proj4.rotate arg q0 w)) = ProjM1.pose rr).
Proof.
  unfold ProjM1.Robot_new, Proj4.Robot_new, bind, ret, log_call.
  cbn [fst]. rewrite move_M1, rotate_M1, move_4, rotate_4.
  cbn [fst ProjM1.pose Proj4.pose ProjM1.x ProjM1.y ProjM1.angle
         Proj4.x Proj4.y Proj4.angle pose_finite pose_no_nan].
  assert (Hsum : forall x c, valid x = true -> is_finite x = true ->
            is_finite c = true ->
            is_nan (x [+] arg [*] c) = false
            /\ (is_finite (x [+] arg [*] c) = false ->
                is_finite (arg [*] c) = false
                \/ overflow_threshold
                   <= Z.abs (scaled x + scaled (arg [*] c)))).
  { intros x c Vx' Fx Fc.
    destruct (mul_finite_shape arg c Harg Fc) as [Np Rp].
    destruct (is_finite (arg [*] c)) eqn:Fp.
    - destruct (add_spec x (arg [*] c) Fx Fp (valid_exp_in_range _ Vx') Rp)
        as [(F & _ & _)|(s & E & O)].
      + split; [now apply finite_not_nan | intros H; congruence].
      + rewrite E. split; [reflexivity | intros _; now right].
    - split; [|intros _; now left].
      destruct (arg [*] c) as [s|s| |s m e]; try discriminate.
      destruct x; try discriminate; reflexivity. }
  destruct (Hsum x0 (cos a) Vx Hx Hcos) as [Nx Ox].
  destruct (Hsum y0 (sin a) Vy Hy Hsin) as [Ny Oy].
  assert (Hrot : is_nan (a [+] arg) = false
                 /\ (is_finite (a [+] arg) = false ->
                     overflow_threshold <= Z.abs (scaled a + scaled arg))).
  { destruct (add_spec a arg Ha Harg (valid_exp_in_range _ Va)
                (valid_exp_in_range _ Varg)) as [(F & _ & _)|(s & E & O)].
    - split; [now apply finite_not_nan | intros H; congruence].
    - rewrite E. split; [reflexivity | intros _; exact O]. }
  destruct Hrot as [Na Oa].
  rewrite Hx, Hy, Ha, Nx, Ny, Na, (finite_not_nan _ Hx), (finite_not_nan _ Hy),
    (finite_not_nan _ Ha).
  repeat split; assumption.
Qed.

Lemma finite_pose_up_to_overflow_witness :
  let r0 := fst (ProjM1.Robot_new max_double lit_0 lit_1_0 empty_world) in
  let rm := fst (@ProjM1.move annex_f_libm max_double r0 empty_world) in
  pose_finite (ProjM1.pose r0) = true
  /\ pose_no_nan (ProjM1.pose rm) = true
  /\ ProjM1.angle rm = lit_1_0
  /\ ProjM1.x rm = pos_inf.
Proof.
  destruct (finite_pose_up_to_overflow annex_f_libm max_double lit_0 lit_1_0
              max_double empty_world eq_refl eq_refl eq_refl eq_refl eq_refl
              eq_refl eq_refl eq_refl eq_refl eq_refl)
    as (H0 & (Hn & Hk & _) & _).
  split; [exact H0|]. split; [exact Hn|]. split; [exact Hk|].
  vm_compute. reflexivity.
Defined.

(** [move(DBL_MAX)], [rotate(0)], [move(-DBL_MAX)] from [(DBL_MAX, 0)] at
    heading 0 ends at [x = +inf]; from [(1, 0)] it ends at [x = 0]. *)
Lemma out_and_back_counterexample :
  let trip := [OpMove max_double; OpRotate lit_0; OpMove (neg max_double)] in
  let far := fst (@ProjM1.run annex_f_libm trip
                    (ProjM1.Build_Robot max_double lit_0 lit_0) empty_world) in
  let near := fst (@ProjM1.run annex_f_libm trip
                     (ProjM1.Build_Robot lit_1_0 lit_0 lit_0) empty_world) in
  is_finite max_double = true
  /\ ProjM1.pose far = (pos_inf, pos_zero, pos_zero)
  /\ ProjM1.pose near = (pos_zero, pos_zero, pos_zero).
Proof.
  cbv zeta. repeat split; vm_compute; reflexivity.
Qed.

(** C7, as the code has it: for a finite binary64 position and a finite
    [d], the sequence [move(d)], [rotate(0)], [move(-d)] leaves the heading
    with the value it had and, for each coordinate that is finite after
    the first move and at the end, ends within [2^-53] times the sum of the
    magnitudes of these two of the original coordinate.  [rotate(0)] turns
    the heading [-0] into [+0]: [cos] and [sin] are asked to have the same
    value before and after it, which is so for every other heading. *)
Theorem out_and_back_up_to_rounding (L : Libm) (x0 y0 a d : double)
    (w : World)
    (Vx : valid x0 = true) (Vy : valid y0 = true)
    (Hx : is_finite x0 = true) (Hy : is_finite y0 = true)
    (Hd : is_finite d = true)
    (Hcos : same_value (cos (a [+] lit_0)) (cos a))
    (Hsin : same_value (sin (a [+] lit_0)) (sin a)) :
  let trip := [OpMove d; OpRotate lit_0; OpMove (neg d)] in
  let r1 := fst (ProjM1.move d (ProjM1.Build_Robot x0 y0 a) w) in
  let r3 := fst (ProjM1.run trip (ProjM1.Build_Robot x0 y0 a) w) in
  let q1 := fst (Proj4.move d (Proj4.Build_Robot x0 y0 a) w) in
  let q3 := fst (Proj4.run trip (Proj4.Build_Robot x0 y0 a) w) in
  (same_value (ProjM1.angle r3) a /\ same_value (Proj4.angle q3) a)
  /\ (is_finite (ProjM1.x r1) = true -> is_finite (ProjM1.x r3) = true ->
      2 ^ 53 * Z.abs (scaled (ProjM1.x r3) - scaled x0)
      <= Z.abs (scaled (ProjM1.x r1)) + Z.abs (scaled (ProjM1.x r3)))
  /\ (is_finite (ProjM1.y r1) = true -> is_finite (ProjM1.y r3) = true ->
      2 ^ 53 * Z.abs (scaled (ProjM1.y r3) - scaled y0)
      <= Z.abs (scaled (ProjM1.y r1)) + Z.abs (scaled (ProjM1.y r3)))
  /\ (is_finite (Proj4.x q1) = true -> is_finite (Proj4.x q3) = true ->
      2 ^ 53 * Z.abs (scaled (Proj4.x q3) - scaled x0)
      <= Z.abs (scaled (Proj4.x q1)) + Z.abs (scaled (Proj4.x q3)))
  /\ (is_finite (Proj4.y q1) = true -> is_finite (Proj4.y q3) = true ->
      2 ^ 53 * Z.abs (scaled (Proj4.y q3) - scaled y0)
      <= Z.abs (scaled (Proj4.y q1)) + Z.abs (scaled (Proj4.y q3))).
Proof.
  run_calls.
  assert (Hgen : forall x c1 c2, valid x = true -> is_finite x = true ->
            same_value c2 c1 ->
            is_finite (x [+] d [*] c1) = true ->
            is_finite (x [+] d [*] c1 [+] neg d [*] c2) = true ->
            2 ^ 53 * Z.abs (scaled (x [+] d [*] c1 [+] neg d [*] c2) - scaled x)
            <= Z.abs (scaled (x [+] d [*] c1))
               + Z.abs (scaled (x [+] d [*] c1 [+] neg d [*] c2))).
  { intros x c1 c2 Vx' Fx Hc F1 F2.
    pose proof (add_finite_r _ _ F1) as Fp.
    destruct (mul_back d c1 c2 Hd Hc Fp) as [Fq Sq].
    apply there_and_back; auto using mul_exp_in_range. }
  split; [split; now apply add_zero_r|].
  repeat split; apply Hgen; assumption.
Qed.

Lemma out_and_back_up_to_rounding_witness :
  let trip := [OpMove max_double; OpRotate lit_0; OpMove (neg max_double)] in
  let r0 := ProjM1.Build_Robot lit_1_0 lit_0_5 lit_0_5 in
  let r1 := fst (@ProjM1.move annex_f_libm max_double r0 empty_world) in
  let r3 := fst (@ProjM1.run annex_f_libm trip r0 empty_world) in
  same_value (ProjM1.angle r3) lit_0_5
  /\ 2 ^ 53 * Z.abs (scaled (ProjM1.x r3) - scaled lit_1_0)
     <= Z.abs (scaled (ProjM1.x r1)) + Z.abs (scaled (ProjM1.x r3)).
Proof.
  destruct (out_and_back_up_to_rounding annex_f_libm lit_1_0 lit_0_5 lit_0_5
              max_double empty_world eq_refl eq_refl eq_refl eq_refl eq_refl
              (or_introl eq_refl) (or_introl eq_refl))
    as ((Ha & _) & Hbx & _).
  split; [exact Ha|].
  apply Hbx; vm_compute; reflexivity.
Defined.
